(** * fastai vision transforms: lazy images, randomised transforms, resampling

    A shallow embedding of [fastai/vision/transform.py].

    Conventions of the embedding.
    - Tensor elements and coordinates are exact rationals ([Qc]); the
      transcendental element-wise functions of torch and numpy, the
      interpolating resampler [F.grid_sample] and the two random sources are
      fields of the [Backend] class.
    - Pixel tensors live in a store and are named by their address, because
      the source updates them in place ([sigmoid_], [logit_], [add_], ...)
      and lets [_px] and [_logit_px] name the same tensor.  [Image] objects
      live in a store too, so that "the same object" can be told from "an
      equal copy".
    - A Python exception is an [Err] outcome; the store survives it. *)

From Stdlib Require Import ZArith QArith Qcanon List String Lia Permutation Sorted.
From stdpp Require Import base list strings numbers.

Open Scope Z_scope.

(** ** Python values, exceptions, dictionaries *)

Inductive exn :=
| TypeError
| AssertionError (msg : string)
| IndexError
| RuntimeError.

Inductive result (A : Type) :=
| Ok (a : A)
| Err (e : exn).
Arguments Ok {A} a.
Arguments Err {A} e.

Definition is_err {A} (r : result A) : bool :=
  match r with Ok _ => false | Err _ => true end.

(** Values that travel through keyword arguments.  [VTensor shape data] is a
    torch tensor given by its shape and its elements in row-major order. *)
#[warnings="-register-all"]
Inductive value :=
| VNone
| VBool (b : bool)
| VInt (z : Z)
| VFloat (q : Qc)
| VStr (s : string)
| VTuple (l : list value)
| VTensor (shape : list nat) (data : list Qc).

(** A [dict] with string keys, in insertion order (Python 3.7). *)
Abbreviation dict V := (list (string * V)) (only parsing).

Fixpoint dict_get {V} (d : dict V) (k : string) : option V :=
  match d with
  | [] => None
  | (k', v) :: d' => if String.eqb k k' then Some v else dict_get d' k
  end.

Definition dict_in {V} (k : string) (d : dict V) : bool :=
  match dict_get d k with Some _ => true | None => false end.

(** [d[k] = v]: an existing key keeps its place, a new key goes last. *)
Fixpoint dict_set {V} (d : dict V) (k : string) (v : V) : dict V :=
  match d with
  | [] => [(k, v)]
  | (k', v') :: d' =>
      if String.eqb k k' then (k', v) :: d' else (k', v') :: dict_set d' k v
  end.

(** [{**a, **b}] *)
Definition dict_merge {V} (a b : dict V) : dict V :=
  fold_left (fun acc kv => dict_set acc (fst kv) (snd kv)) b a.

Fixpoint dict_remove {V} (d : dict V) (k : string) : dict V :=
  match d with
  | [] => []
  | (k', v) :: d' =>
      if String.eqb k k' then dict_remove d' k else (k', v) :: dict_remove d' k
  end.

(** ** [listify] *)

(** The first argument of [listify]: [None], a value that is not
    [Iterable], or a list or tuple. *)
Inductive listy (A : Type) :=
| PNone
| PAtom (a : A)
| PSeq (l : list A).
Arguments PNone {A}.
Arguments PAtom {A} a.
Arguments PSeq {A} l.

(** The second argument: absent, an [int], or an object with a [len]. *)
Inductive qarg :=
| QNone
| QInt (n : Z)
| QSized (len : nat).

(** [p * n] on a Python list: [n] copies, none when [n <= 0]. *)
Definition py_repeat {A} (p : list A) (n : Z) : list A :=
  concat (replicate (Z.to_nat n) p).

Definition listy_items {A} (p : listy A) : list A :=
  match p with
  | PNone => []
  | PAtom a => [a]
  | PSeq l => l
  end.

Definition listify_count {A} (p : list A) (q : qarg) : Z :=
  match q with
  | QInt n => n
  | QNone => Z.of_nat (length p)
  | QSized k => Z.of_nat k
  end.

Definition listify {A} (p : listy A) (q : qarg) : result (list A) :=
  let p := listy_items p in
  let n := listify_count p q in
  let p := if (length p =? 1)%nat then py_repeat p n else p in
  if Z.of_nat (length p) =? n then Ok p
  else Err (AssertionError "List len mismatch").

(** ** Numbers, matrices, tensors *)

Definition Qc_of_Z (z : Z) : Qc := Q2Qc (inject_Z z).
Definition Qc_of_nat (n : nat) : Qc := Qc_of_Z (Z.of_nat n).

Definition Qcltb (a b : Qc) : bool := bool_decide (a < b)%Qc.

(** [torch.round]: the nearest integer, a tie going to the even
    neighbour. *)
Definition round_half_even (q : Qc) : Z :=
  let n := Qnum (this q) in
  let d := Zpos (Qden (this q)) in
  let fl := n / d in
  let r := n mod d in
  match 2 * r ?= d with
  | Lt => fl
  | Gt => fl + 1
  | Eq => if Z.even fl then fl else fl + 1
  end.

(** [.long()] on a float of integral value: the value itself when it fits
    the 64 bits of the result, and the least 64-bit integer otherwise, which
    is what the conversion gives on x86-64. *)
Definition to_int64 (z : Z) : Z :=
  if (- 2 ^ 63 <=? z) && (z <? 2 ^ 63) then z else - 2 ^ 63.

(** [torch.clamp(v, lo, hi)] is [min(max(v, lo), hi)]. *)
Definition clamp (lo hi v : Z) : Z := Z.min (Z.max v lo) hi.

(** A pixel tensor, channels x height x width. *)
Abbreviation tensor := (list (list (list Qc))) (only parsing).

(** [t.shape] *)
Definition tshape (t : tensor) : nat * nat * nat :=
  (length t, length (hd [] t), length (hd [] (hd [] t))).

(** A flow field, height x width x 2 (the leading batch dimension of size 1
    is left out): the [(x, y)] sample coordinate of every output pixel. *)
Abbreviation flow := (list (list (Qc * Qc))) (only parsing).

(** A 3x3 affine matrix, by rows. *)
Record mat3 := Mat3 {
  m00 : Qc; m01 : Qc; m02 : Qc;
  m10 : Qc; m11 : Qc; m12 : Qc;
  m20 : Qc; m21 : Qc; m22 : Qc
}.

(** [torch.eye(3)] *)
Definition eye3 : mat3 := Mat3 1 0 0 0 1 0 0 0 1.

(** [a @ b] *)
Definition matmul (a b : mat3) : mat3 :=
  Mat3
    (m00 a * m00 b + m01 a * m10 b + m02 a * m20 b)
    (m00 a * m01 b + m01 a * m11 b + m02 a * m21 b)
    (m00 a * m02 b + m01 a * m12 b + m02 a * m22 b)
    (m10 a * m00 b + m11 a * m10 b + m12 a * m20 b)
    (m10 a * m01 b + m11 a * m11 b + m12 a * m21 b)
    (m10 a * m02 b + m11 a * m12 b + m12 a * m22 b)
    (m20 a * m00 b + m21 a * m10 b + m22 a * m20 b)
    (m20 a * m01 b + m21 a * m11 b + m22 a * m21 b)
    (m20 a * m02 b + m21 a * m12 b + m22 a * m22 b)%Qc.

(** ** The external libraries *)

Class Backend := {
  (** [torch.Tensor.reciprocal_], [log_], [exp_] and [sigmoid_], per element *)
  t_reciprocal : Qc -> Qc;
  t_log : Qc -> Qc;
  t_exp : Qc -> Qc;
  t_sigmoid : Qc -> Qc;
  (** [numpy.log] and [numpy.exp] *)
  np_log : Qc -> Qc;
  np_exp : Qc -> Qc;
  (** [torch.nn.functional.grid_sample] on a batch of one *)
  F_grid_sample : tensor -> flow -> value -> value -> result tensor;
  (** the successive outputs of [random.random()], each in [0, 1) *)
  py_random : nat -> Qc;
  (** the successive outputs of torch's generator, each in [0, 1) *)
  torch_random : nat -> Qc
}.

(** ** The resampler *)

(** [torch.linspace(-1, 1, n)] *)
Definition linspace (n : nat) : list Qc :=
  map (fun i => (-1 + Qc_of_nat i * (2 / (Qc_of_nat n - 1)))%Qc) (seq 0 n).

(** [torch.linspace(-1, 1, n) if n > 1 else tensor([-1])] *)
Definition linear_points (n : nat) : list Qc :=
  if (1 <? n)%nat then linspace n else [(-1)%Qc].

Definition affine_grid (size : nat * nat * nat) : flow :=
  let '(_, H, W) := size in
  let xs := take W (linear_points W) in
  let ys := take H (linear_points H) in
  map (fun y => map (fun x => (x, y)) xs) ys.

(** [torch.addmm(m[:2,2], c, m[:2,:2].t())] on every coordinate pair *)
Definition affine_mult (c : flow) (m : option mat3) : flow :=
  match m with
  | None => c
  | Some m =>
      map (map (fun '(x, y) =>
        ((x * m00 m + y * m01 m + m02 m)%Qc,
         (x * m10 m + y * m11 m + m12 m)%Qc))) c
  end.

(** [l[i]] with Python's negative indices *)
Definition py_index {A} (l : list A) (i : Z) : option A :=
  if 0 <=? i then l !! Z.to_nat i
  else if - Z.of_nat (length l) <=? i then l !! Z.to_nat (Z.of_nat (length l) + i)
  else None.

Definition is_str (v : value) (s : string) : bool :=
  match v with VStr s' => String.eqb s s' | _ => false end.

(** One output pixel of [input[..., ys, xs]] for one channel. *)
Definition gather_pixel (chan : list (list Qc)) (xy : Z * Z) : result Qc :=
  match py_index chan (snd xy) with
  | None => Err IndexError
  | Some row =>
      match py_index row (fst xy) with
      | None => Err IndexError
      | Some v => Ok v
      end
  end.

Fixpoint result_all {A} (l : list (result A)) : result (list A) :=
  match l with
  | [] => Ok []
  | Ok a :: l' =>
      match result_all l' with Ok r => Ok (a :: r) | Err e => Err e end
  | Err e :: _ => Err e
  end.

Definition gather_channel (idx : list (list (Z * Z))) (chan : list (list Qc))
  : result (list (list Qc)) :=
  result_all (map (fun row => result_all (map (gather_pixel chan) row)) idx).

Definition zero_masked (mask : list (list bool)) (chan : list (list Qc))
  : list (list Qc) :=
  zip_with (zip_with (fun (b : bool) v => if b then 0%Qc else v)) mask chan.

(** [grid_sample_nearest(input, coords, padding_mode)] with [input = x[None]].
    - The first line of the source, [coords.clamp(-1,1)], is the
      out-of-place [clamp] and its value is dropped: it has no effect.
    - [sz/2] is [(w/2, h/2)]; the coordinates are scaled, rounded,
      converted to 64-bit integers, masked (only when [padding_mode] is
      ['zeros']), clamped and looked up.
    - The source scales and rounds [coords] in place.  [refresh], the one
      caller of the file, drops the flow field as soon as the call returns;
      what the caller's tensor holds after the call is not modelled. *)
Definition grid_sample_nearest (input : tensor) (coords : flow)
    (padding_mode : value) : result tensor :=
  let '(_, h, w) := tshape input in
  let wz := Z.of_nat w in
  let hz := Z.of_nat h in
  let scaled := map (map (fun '(x, y) =>
      (((x + 1) * (Qc_of_nat w / 2))%Qc, ((y + 1) * (Qc_of_nat h / 2))%Qc))) coords in
  let idx := map (map (fun '(x, y) =>
      (to_int64 (round_half_even x), to_int64 (round_half_even y)))) scaled in
  let mask := map (map (fun '(x, y) =>
      (x <? 0) || (y <? 0) || (wz <=? x) || (hz <=? y))) idx in
  let idx := map (map (fun '(x, y) => (clamp 0 (wz - 1) x, clamp 0 (hz - 1) y))) idx in
  match result_all (map (gather_channel idx) input) with
  | Err e => Err e
  | Ok res =>
      if is_str padding_mode "zeros" then Ok (map (zero_masked mask) res)
      else Ok res
  end.

(** [grid_sample(x, coords, mode='bilinear', padding_mode='reflect')] *)
Definition grid_sample `{Backend} (x : tensor) (coords : flow)
    (mode padding_mode : value) : result tensor :=
  let padding_mode :=
    if is_str padding_mode "reflect" then VStr "reflection" else padding_mode in
  if is_str mode "nearest" then grid_sample_nearest x coords padding_mode
  else F_grid_sample x coords mode padding_mode.

(** [grid_sample(x, coords, **kw)]: the defaults fill what [kw] leaves out,
    a keyword the function does not have is a [TypeError]. *)
Definition grid_sample_kw `{Backend} (x : tensor) (coords : flow)
    (kw : dict value) : result tensor :=
  if forallb (fun kv => String.eqb (fst kv) "mode"
                        || String.eqb (fst kv) "padding_mode") kw
  then grid_sample x coords
         (default (VStr "bilinear") (dict_get kw "mode"))
         (default (VStr "reflect") (dict_get kw "padding_mode"))
  else Err TypeError.

(** ** The store and the monad of the embedding *)

(** The fields of an [Image] object.  [_px] and [_logit_px] hold addresses
    of pixel tensors; a flow field and an affine matrix are held by one image
    only and are kept as values. *)
Record Image := mkImage {
  _px : nat;
  _logit_px : option nat;
  _flow : option flow;
  _affine_mat : option mat3;
  sample_kwargs : dict value
}.

(** Positions in the two random sources. *)
Record rng := Rng {
  py_pos : nat;
  torch_pos : nat
}.

Record world := World {
  tensors : list tensor;
  images : list Image;
  rng_state : rng
}.

(** Computations over a state [S] that may raise: the state is returned in
    both outcomes. *)
Definition ST (S A : Type) : Type := S -> result A * S.

Definition M (A : Type) : Type := ST world A.

Definition ret {S A} (a : A) : ST S A := fun s => (Ok a, s).

Definition raise {S A} (e : exn) : ST S A := fun s => (Err e, s).

Definition bind {S A B} (m : ST S A) (k : A -> ST S B) : ST S B :=
  fun s =>
    match m s with
    | (Ok a, s') => k a s'
    | (Err e, s') => (Err e, s')
    end.

Declare Scope py_scope.
Delimit Scope py_scope with py.
Notation "x <- m ;; k" := (bind m (fun x => k))
  (at level 20, m at level 99, k at level 200, only parsing) : py_scope.
Notation "m ;; k" := (bind m (fun _ => k))
  (at level 100, k at level 200, right associativity, only parsing) : py_scope.
Open Scope py_scope.

Definition lift {S A} (r : result A) : ST S A :=
  match r with Ok a => ret a | Err e => raise e end.

(** [for a in l: body(a)] *)
Fixpoint for_each {S A} (l : list A) (body : A -> ST S unit) : ST S unit :=
  match l with
  | [] => ret tt
  | a :: l' => body a ;; for_each l' body
  end.

Definition tensor_at (w : world) (l : nat) : tensor :=
  default [] (tensors w !! l).

Definition image_at (w : world) (x : nat) : Image :=
  default (mkImage 0 None None None []) (images w !! x).

Definition read_tensor (l : nat) : M tensor :=
  fun w => (Ok (tensor_at w l), w).

Definition upd_tensor (l : nat) (t : tensor) (w : world) : world :=
  World (<[l := t]> (tensors w)) (images w) (rng_state w).

Definition push_tensor (t : tensor) (w : world) : world :=
  World (tensors w ++ [t]) (images w) (rng_state w).

Definition upd_image (x : nat) (f : Image -> Image) (w : world) : world :=
  World (tensors w) (<[x := f (image_at w x)]> (images w)) (rng_state w).

Definition push_image (i : Image) (w : world) : world :=
  World (tensors w) (images w ++ [i]) (rng_state w).

(** an in-place update of the tensor at [l] *)
Definition write_tensor (l : nat) (t : tensor) : M unit :=
  fun w => (Ok tt, upd_tensor l t w).

(** a new tensor *)
Definition alloc_tensor (t : tensor) : M nat :=
  fun w => (Ok (length (tensors w)), push_tensor t w).

Definition get_image (x : nat) : M Image :=
  fun w => (Ok (image_at w x), w).

Definition modify_image (x : nat) (f : Image -> Image) : M unit :=
  fun w => (Ok tt, upd_image x f w).

(** a new [Image] object *)
Definition alloc_image (i : Image) : M nat :=
  fun w => (Ok (length (images w)), push_image i w).

Definition set_px (l : nat) (i : Image) : Image :=
  mkImage l (_logit_px i) (_flow i) (_affine_mat i) (sample_kwargs i).
Definition set_logit_px (l : option nat) (i : Image) : Image :=
  mkImage (_px i) l (_flow i) (_affine_mat i) (sample_kwargs i).
Definition set_flow (f : option flow) (i : Image) : Image :=
  mkImage (_px i) (_logit_px i) f (_affine_mat i) (sample_kwargs i).
Definition set_affine_mat (m : option mat3) (i : Image) : Image :=
  mkImage (_px i) (_logit_px i) (_flow i) m (sample_kwargs i).
Definition set_sample_kwargs (kw : dict value) (i : Image) : Image :=
  mkImage (_px i) (_logit_px i) (_flow i) (_affine_mat i) kw.

Definition tmap (f : Qc -> Qc) (t : tensor) : tensor := map (map (map f)) t.

(** [t.op_()] for an element-wise [op] *)
Definition map_in_place (f : Qc -> Qc) (l : nat) : M unit :=
  t <- read_tensor l ;; write_tensor l (tmap f t).

(** [logit_(x)]: [x.reciprocal_().sub_(1).log_().neg_()], all in place. *)
Definition logit_ `{Backend} (l : nat) : M nat :=
  map_in_place t_reciprocal l ;;
  map_in_place (fun v => (v - 1)%Qc) l ;;
  map_in_place t_log l ;;
  map_in_place Qcopp l ;;
  ret l.

(** ** [Image] *)

(** A function over pixel or logit tensors.  It either updates its argument
    in place and returns it ([x.add_(..)]) or returns a new tensor
    ([x.flip(2)]). *)
Record tensor_func := TensorFunc {
  in_place : bool;
  run : list value -> dict value -> tensor -> result tensor
}.

Definition coord_func : Type :=
  list value -> dict value -> flow -> nat * nat * nat -> result flow.

Definition affine_func : Type := list value -> dict value -> result mat3.

Definition call_tensor_func (f : tensor_func) (args : list value)
    (kw : dict value) (l : nat) : M nat :=
  t <- read_tensor l ;;
  t' <- lift (run f args kw t) ;;
  if in_place f then write_tensor l t' ;; ret l else alloc_tensor t'.

(** [Image.__init__(px)] *)
Definition Image_init (px : nat) : M nat :=
  alloc_image (mkImage px None None None []).

(** [Image.shape]: the shape of [_px], read without a refresh. *)
Definition Image_shape (x : nat) : M (nat * nat * nat) :=
  i <- get_image x ;;
  t <- read_tensor (_px i) ;;
  ret (tshape t).

(** the getter of [Image.flow] *)
Definition Image_flow (x : nat) : M flow :=
  i <- get_image x ;;
  (if _flow i is None
   then sz <- Image_shape x ;; modify_image x (set_flow (Some (affine_grid sz)))
   else ret tt) ;;
  i <- get_image x ;;
  (if _affine_mat i is Some m
   then modify_image x (set_flow (Some (affine_mult (default [] (_flow i)) (Some m)))) ;;
        modify_image x (set_affine_mat None)
   else ret tt) ;;
  i <- get_image x ;;
  ret (default [] (_flow i)).

Definition Image_refresh `{Backend} (x : nat) : M unit :=
  i <- get_image x ;;
  (if _logit_px i is Some l
   then map_in_place t_sigmoid l ;;
        modify_image x (set_px l) ;;
        modify_image x (set_logit_px None)
   else ret tt) ;;
  i <- get_image x ;;
  if bool_decide (_affine_mat i <> None) || bool_decide (_flow i <> None)
  then
    t <- read_tensor (_px i) ;;
    f <- Image_flow x ;;
    i <- get_image x ;;
    r <- lift (grid_sample_kw t f (sample_kwargs i)) ;;
    l <- alloc_tensor r ;;
    modify_image x (set_px l) ;;
    modify_image x (set_sample_kwargs []) ;;
    modify_image x (set_flow None)
  else ret tt.

(** the getter of [Image.px] *)
Definition Image_px `{Backend} (x : nat) : M nat :=
  Image_refresh x ;;
  i <- get_image x ;;
  ret (_px i).

(** [Image.data] *)
Definition Image_data `{Backend} (x : nat) : M nat := Image_px x.

(** the getter of [Image.affine_mat] *)
Definition Image_affine_mat (x : nat) : M mat3 :=
  i <- get_image x ;;
  (if _affine_mat i is None
   then modify_image x (set_affine_mat (Some eye3))
   else ret tt) ;;
  i <- get_image x ;;
  ret (default eye3 (_affine_mat i)).

(** the getter of [Image.logit_px] *)
Definition Image_logit_px `{Backend} (x : nat) : M nat :=
  i <- get_image x ;;
  (if _logit_px i is None
   then l <- Image_px x ;;
        l <- logit_ l ;;
        modify_image x (set_logit_px (Some l))
   else ret tt) ;;
  i <- get_image x ;;
  ret (default 0%nat (_logit_px i)).

Definition Image_lighting `{Backend} (x : nat) (func : tensor_func)
    (args : list value) (kw : dict value) : M nat :=
  l <- Image_logit_px x ;;
  l' <- call_tensor_func func args kw l ;;
  modify_image x (set_logit_px (Some l')) ;;
  ret x.

Definition Image_pixel `{Backend} (x : nat) (func : tensor_func)
    (args : list value) (kw : dict value) : M nat :=
  l <- Image_px x ;;
  l' <- call_tensor_func func args kw l ;;
  modify_image x (set_px l') ;;
  ret x.

Definition Image_coord (x : nat) (func : coord_func)
    (args : list value) (kw : dict value) : M nat :=
  f <- Image_flow x ;;
  sz <- Image_shape x ;;
  f' <- lift (func args kw f sz) ;;
  modify_image x (set_flow (Some f')) ;;
  ret x.

Definition Image_affine (x : nat) (func : affine_func)
    (args : list value) (kw : dict value) : M nat :=
  m <- lift (func args kw) ;;
  a <- Image_affine_mat x ;;
  modify_image x (set_affine_mat (Some (matmul a m))) ;;
  ret x.

(** The [size] argument of [resize]: an [int] or a [(c, h, w)] tuple. *)
Inductive size_arg :=
| SizeInt (n : nat)
| SizeTuple (c h w : nat).

Definition Image_resize (x : nat) (size : size_arg) : M nat :=
  i <- get_image x ;;
  if _flow i is Some _ then raise (AssertionError "") else
  sz <- match size with
        | SizeInt n => s <- Image_shape x ;; ret (fst (fst s), n, n)
        | SizeTuple c h w => ret (c, h, w)
        end ;;
  modify_image x (set_flow (Some (affine_grid sz))) ;;
  ret x.

(** [ImageBase.set_sample], called with keyword arguments [kw] *)
Definition Image_set_sample (x : nat) (kw : dict value) : M nat :=
  modify_image x (set_sample_kwargs kw) ;;
  ret x.

(** [ImageBase.clone]: [self.__class__(self.data.clone())] *)
Definition Image_clone `{Backend} (x : nat) : M nat :=
  l <- Image_data x ;;
  t <- read_tensor l ;;
  l' <- alloc_tensor t ;;
  Image_init l'.

(** ** The random parameter draws *)

Definition draw_py `{Backend} : ST rng Qc :=
  fun s => (Ok (py_random (py_pos s)), Rng (S (py_pos s)) (torch_pos s)).

Definition draw_torch `{Backend} : ST rng Qc :=
  fun s => (Ok (torch_random (torch_pos s)), Rng (py_pos s) (S (torch_pos s))).

(** [random.uniform(low, high)] is [low + (high-low) * random()]. *)
Definition random_uniform `{Backend} (low high : Qc) : ST rng Qc :=
  r <- draw_py ;; ret (low + (high - low) * r)%Qc.

Fixpoint draws_torch `{Backend} (n : nat) : ST rng (list Qc) :=
  match n with
  | O => ret []
  | S n' => r <- draw_torch ;; rs <- draws_torch n' ;; ret (r :: rs)
  end.

(** [torch.FloatTensor( *dims).uniform_(low, high)] *)
Definition FloatTensor_uniform_ `{Backend} (dims : list nat) (low high : Qc)
  : ST rng value :=
  let shape := if dims is [] then [0%nat] else dims in
  us <- draws_torch (foldr Nat.mul 1%nat shape) ;;
  ret (VTensor shape (map (fun u => (low + (high - low) * u)%Qc) us)).

Definition uniform `{Backend} (low high : Qc) (size : option (listy nat))
  : ST rng value :=
  match size with
  | None => r <- random_uniform low high ;; ret (VFloat r)
  | Some sz => dims <- lift (listify sz QNone) ;; FloatTensor_uniform_ dims low high
  end.

Definition log_uniform `{Backend} (low high : Qc) (size : option (listy nat))
  : ST rng value :=
  res <- uniform (np_log low) (np_log high) size ;;
  match res with
  | VFloat r => ret (VFloat (np_exp r))
  | VTensor sh d => ret (VTensor sh (map t_exp d))
  | _ => raise TypeError
  end.

(** [rand_bool(p, size)] is [uniform(0,1,size) < p]; on a tensor the
    comparison gives a tensor of zeros and ones. *)
Definition rand_bool `{Backend} (p : Qc) (size : option (listy nat))
  : ST rng value :=
  res <- uniform 0 1 size ;;
  match res with
  | VFloat r => ret (VBool (Qcltb r p))
  | VTensor sh d => ret (VTensor sh (map (fun r => if Qcltb r p then 1 else 0)%Qc d))
  | _ => raise TypeError
  end.

(** A distribution generator as it stands in a parameter annotation: called
    with positional arguments. *)
Definition rand_func : Type := list value -> ST rng value.

Definition as_number (v : value) : result Qc :=
  match v with
  | VInt z => Ok (Qc_of_Z z)
  | VFloat q => Ok q
  | VBool b => Ok (if b then 1 else 0)%Qc
  | _ => Err TypeError
  end.

Definition as_dim (v : value) : result nat :=
  match v with
  | VInt z => if z <? 0 then Err RuntimeError else Ok (Z.to_nat z)
  | _ => Err TypeError
  end.

Definition as_size (v : value) : result (option (listy nat)) :=
  match v with
  | VNone => Ok None
  | VTuple l =>
      match result_all (map as_dim l) with
      | Ok ds => Ok (Some (PSeq ds))
      | Err e => Err e
      end
  | v => match as_dim v with Ok d => Ok (Some (PAtom d)) | Err e => Err e end
  end.

(** [f(low, high, size=None)] called with the positional arguments [args] *)
Definition call_low_high (f : Qc -> Qc -> option (listy nat) -> ST rng value)
  : rand_func :=
  fun args =>
    match args with
    | [lo; hi] =>
        l <- lift (as_number lo) ;; h <- lift (as_number hi) ;; f l h None
    | [lo; hi; sz] =>
        z <- lift (as_size sz) ;;
        l <- lift (as_number lo) ;; h <- lift (as_number hi) ;; f l h z
    | _ => raise TypeError
    end.

Definition uniform_fn `{Backend} : rand_func := call_low_high uniform.

Definition log_uniform_fn `{Backend} : rand_func := call_low_high log_uniform.

Definition rand_bool_fn `{Backend} : rand_func :=
  fun args =>
    match args with
    | [p] => q <- lift (as_number p) ;; rand_bool q None
    | [p; sz] =>
        z <- lift (as_size sz) ;; q <- lift (as_number p) ;; rand_bool q z
    | _ => raise TypeError
    end.

(** ** [Transform] *)

Inductive tfm_class :=
| TfmLighting
| TfmAffine
| TfmPixel
| TfmCoord.

(** the class attribute [order] *)
Definition class_order (c : tfm_class) : Z :=
  match c with
  | TfmLighting => 8
  | TfmAffine => 5
  | TfmPixel => 10
  | TfmCoord => 4
  end.

(** the class attribute [_wrap] *)
Definition class_wrap (c : tfm_class) : string :=
  match c with
  | TfmLighting => "lighting"
  | TfmAffine => "affine"
  | TfmPixel => "pixel"
  | TfmCoord => "coord"
  end.

(** The wrapped function, by the class that wraps it.  [Transform] itself,
    whose [_wrap] is [None], is only the base of these four classes: every
    transform of the file is made through one of them. *)
Inductive tfm_func :=
| LightingFunc (f : tensor_func)
| AffineFunc (f : affine_func)
| PixelFunc (f : tensor_func)
| CoordFunc (f : coord_func).

Definition func_class (f : tfm_func) : tfm_class :=
  match f with
  | LightingFunc _ => TfmLighting
  | AffineFunc _ => TfmAffine
  | PixelFunc _ => TfmPixel
  | CoordFunc _ => TfmCoord
  end.

(** [tfm_id] stands for the identity of the object: [xtra] is keyed by it. *)
Record Transform := mkTransform {
  tfm_id : nat;
  order : Z;
  func : tfm_func;
  params : dict rand_func;
  def_args : dict value
}.

(** [if order is not None: self.order=order] *)
Definition init_order (c : tfm_class) (order : option Z) : Z :=
  default (class_order c) order.

(** [Transform.__init__(func, order=None)]; [annotations] and [defaults] are
    [func.__annotations__] and [get_default_args(func)]. *)
Definition Transform_init (id : nat) (func : tfm_func) (order : option Z)
    (annotations : dict rand_func) (defaults : dict value) : Transform :=
  mkTransform id (init_order (func_class func) order) func annotations defaults.

(** The decorators of the file: the function, its class and the [order]
    given to the constructor. *)
Definition registered : list (string * tfm_class * option Z) :=
  [ ("brightness", TfmLighting, None);
    ("contrast", TfmLighting, None);
    ("rotate", TfmAffine, None);
    ("zoom", TfmAffine, None);
    ("squish", TfmAffine, None);
    ("jitter", TfmCoord, None);
    ("flip_lr", TfmPixel, None);
    ("pad", TfmPixel, Some (-10));
    ("crop", TfmPixel, None);
    ("zoom_squish", TfmCoord, None) ].

Definition registered_order (name : string) : option Z :=
  (fun e => init_order (snd (fst e)) (snd e))
    <$> find (fun e => String.eqb (fst (fst e)) name) registered.

(** [Transform.calc]: [getattr(x, tfm._wrap)(tfm.func, *args, **kwargs)] *)
Definition Transform_calc `{Backend} (t : Transform) (x : nat)
    (args : list value) (kw : dict value) : M nat :=
  match func t with
  | LightingFunc f => Image_lighting x f args kw
  | AffineFunc f => Image_affine x f args kw
  | PixelFunc f => Image_pixel x f args kw
  | CoordFunc f => Image_coord x f args kw
  end.

(** ** [RandTransform] *)

Record RandTransform := mkRandTransform {
  tfm : Transform;
  kwargs : dict value;
  p : Qc;
  resolved : dict value;
  do_run : bool;
  is_random : bool
}.

(** [Transform.__call__] with positional arguments, the first of which is
    the image: its own keywords [p] and [is_random] are taken out of the
    keyword arguments, the rest goes to [calc]. *)
Definition Transform_call `{Backend} (t : Transform) (x : nat)
    (args : list value) (kw : dict value) : M nat :=
  Transform_calc t x args (dict_remove (dict_remove kw "p") "is_random").

(** [Transform.__call__] without positional arguments:
    [RandTransform(self, kwargs=kwargs, is_random=is_random, p=p)];
    [resolved] and [do_run] take the defaults of the dataclass. *)
Definition Transform_call_kw (t : Transform) (p : Qc) (is_random : bool)
    (kw : dict value) : RandTransform :=
  mkRandTransform t kw p [] true is_random.

Definition set_resolved (d : dict value) (r : RandTransform) : RandTransform :=
  mkRandTransform (tfm r) (kwargs r) (p r) d (do_run r) (is_random r).
Definition set_do_run (b : bool) (r : RandTransform) : RandTransform :=
  mkRandTransform (tfm r) (kwargs r) (p r) (resolved r) b (is_random r).

Definition chunks (k : nat) : nat -> list Qc -> list (list Qc) :=
  fix go n d :=
    match n with
    | O => []
    | S n' => take k d :: go n' (drop k d)
    end.

(** What [listify] sees of a raw keyword value: [None], a value that is
    not [Iterable], or the items of an iterable one. *)
Definition value_listy (v : value) : result (listy value) :=
  match v with
  | VNone => Ok PNone
  | VTuple l => Ok (PSeq l)
  | VStr s => Ok (PSeq (map (fun c => VStr (String c EmptyString)) (list_ascii_of_string s)))
  | VTensor [] _ => Err TypeError
  | VTensor (n :: sh) d =>
      Ok (PSeq (map (VTensor sh) (chunks (foldr Nat.mul 1%nat sh) n d)))
  | v => Ok (PAtom v)
  end.

(** The state of [resolve]: the instance and the random sources. *)
Definition self_get : ST (RandTransform * rng) RandTransform :=
  fun s => (Ok (fst s), s).

Definition self_update (f : RandTransform -> RandTransform)
  : ST (RandTransform * rng) unit :=
  fun s => (Ok tt, (f (fst s), snd s)).

Definition with_rng {A} (m : ST rng A) : ST (RandTransform * rng) A :=
  fun s => let (r, g) := m (snd s) in (r, (fst s, g)).

(** [self.resolved[k] = v] *)
Definition resolved_set (k : string) (v : value) : ST (RandTransform * rng) unit :=
  self_update (fun r => set_resolved (dict_set (resolved r) k v) r).

Definition RandTransform_resolve `{Backend} : ST (RandTransform * rng) unit :=
  self <- self_get ;;
  if negb (is_random self)
  then self_update (set_resolved (dict_merge (def_args (tfm self)) (kwargs self)))
  else
    self_update (set_resolved []) ;;
    for_each (kwargs self) (fun '(k, v) =>
      match dict_get (params (tfm self)) k with
      | Some rand_func =>
          a <- lift (value_listy v) ;;
          args <- lift (listify a QNone) ;;
          r <- with_rng (rand_func args) ;;
          resolved_set k r
      | None => resolved_set k v
      end) ;;
    for_each (def_args (tfm self)) (fun '(k, v) =>
      self <- self_get ;;
      if dict_in k (resolved self) then ret tt else resolved_set k v) ;;
    for_each (params (tfm self)) (fun '(k, v) =>
      self <- self_get ;;
      if dict_in k (resolved self) then ret tt
      else r <- with_rng (v []) ;; resolved_set k r) ;;
    b <- with_rng (rand_bool (p self) None) ;;
    match b with
    | VBool b => self_update (set_do_run b)
    | _ => raise TypeError
    end.

(** [RandTransform.__call__(x, *args, **kwargs)] *)
Definition RandTransform_call `{Backend} (r : RandTransform) (x : nat)
    (args : list value) (kw : dict value) : M nat :=
  if do_run r then Transform_call (tfm r) x args (dict_merge (resolved r) kw)
  else ret x.

(** ** The pipeline *)

(** [sorted(l, key=key)]: ascending, elements with equal keys keep their
    order. *)
Fixpoint insert_sorted {A} (key : A -> Z) (a : A) (l : list A) : list A :=
  match l with
  | [] => [a]
  | b :: l' =>
      if key a <=? key b then a :: b :: l' else b :: insert_sorted key a l'
  end.

Definition py_sorted {A} (key : A -> Z) (l : list A) : list A :=
  foldr (insert_sorted key) [] l.

Definition in_world {A} (m : ST rng A) : M A :=
  fun w =>
    let (r, g) := m (rng_state w) in
    (r, World (tensors w) (images w) g).

(** [f.resolve()] on one instance; the instance is returned as the call
    leaves it. *)
Definition resolve_one `{Backend} (f : RandTransform) : M RandTransform :=
  fun w =>
    match RandTransform_resolve (f, rng_state w) with
    | (Ok _, (f', g)) => (Ok f', World (tensors w) (images w) g)
    | (Err e, (_, g)) => (Err e, World (tensors w) (images w) g)
    end.

(** [resolve_tfms]: [for f in listify(tfms): f.resolve()].  The instances
    of the list are taken to be distinct objects. *)
Fixpoint resolve_tfms `{Backend} (tfms : list RandTransform)
  : M (list RandTransform) :=
  match tfms with
  | [] => ret []
  | f :: rest =>
      f' <- resolve_one f ;;
      rest' <- resolve_tfms rest ;;
      ret (f' :: rest')
  end.

(** The loop of [apply_tfms]. *)
Fixpoint apply_each `{Backend} (xtra : list (nat * dict value))
    (tfms : list RandTransform) (x : nat) : M nat :=
  match tfms with
  | [] => ret x
  | t :: rest =>
      x' <- match list_find (fun e => fst e = tfm_id (tfm t)) xtra with
            | Some (_, (_, kw)) => RandTransform_call t x [] kw
            | None => RandTransform_call t x [] []
            end ;;
      apply_each xtra rest x'
  end.

Definition listy_truthy {A} (p : listy A) : bool :=
  match p with
  | PNone => false
  | PAtom _ => true
  | PSeq l => negb (bool_decide (l = []))
  end.

Definition size_truthy (s : option size_arg) : bool :=
  match s with
  | None => false
  | Some (SizeInt n) => negb (n =? 0)%nat
  | Some (SizeTuple _ _ _) => true
  end.

(** The list that [apply_tfms] walks through. *)
Definition pipeline_order (tfms : list RandTransform) : list RandTransform :=
  py_sorted (fun o => order (tfm o)) tfms.

(** [apply_tfms(tfms, x, do_resolve=True, xtra=None, size=None, **kwargs)],
    the second definition of the file, which replaces the first. *)
Definition apply_tfms `{Backend} (tfms : listy RandTransform) (x : nat)
    (do_resolve : bool) (xtra : option (list (nat * dict value)))
    (size : option size_arg) (kw : dict value) : M nat :=
  if negb (listy_truthy tfms || size_truthy size) then ret x else
  let xtra := default [] xtra in
  l <- lift (listify tfms QNone) ;;
  let tfms := pipeline_order l in
  tfms <- (if do_resolve then resolve_tfms tfms else ret tfms) ;;
  x <- Image_clone x ;;
  (if kw is [] then ret x else Image_set_sample x kw) ;;
  (match size with
   | Some sz => if size_truthy size then Image_resize x sz else ret x
   | None => ret x
   end) ;;
  apply_each xtra tfms x.

(** ** Reasoning about computations *)

(** [hoare P m Q E]: from a state in [P], [m] ends in [Q] when it returns
    and in [E] when it raises. *)
Definition hoare {S A} (P : S -> Prop) (m : ST S A)
    (Q : A -> S -> Prop) (E : S -> Prop) : Prop :=
  forall s, P s ->
    match m s with
    | (Ok a, s') => Q a s'
    | (Err _, s') => E s'
    end.

(** [resolve] changes nothing of the instance but [resolved] and [do_run];
    [same_instance r0 s] says that the instance of the state [s] still has
    the other fields, and the [do_run], of [r0]. *)
Definition same_instance (r0 : RandTransform) (s : RandTransform * rng) : Prop :=
  tfm (fst s) = tfm r0 /\ kwargs (fst s) = kwargs r0 /\ p (fst s) = p r0
  /\ do_run (fst s) = do_run r0 /\ is_random (fst s) = is_random r0.

(** the order of the keys of a sort *)
Definition key_le {A} (key : A -> Z) (a b : A) : Prop := key a <= key b.

(** The clone and what it may touch.  [T0] and [I0] are the tensors and the
    images at the time of the clone and [c] is the clone: the tensors an
    image names are [fresh] when they were made after [T0], and
    [clone_inv] says that [T0] and [I0] are still in place and that the
    clone is a later image which names fresh tensors only. *)
Definition fresh (T0 : list tensor) (i : Image) : Prop :=
  (length T0 <= _px i)%nat
  /\ forall l, _logit_px i = Some l -> (length T0 <= l)%nat.

Definition clone_inv (T0 : list tensor) (I0 : list Image) (c : nat)
    (w : world) : Prop :=
  T0 `prefix_of` tensors w /\ I0 `prefix_of` images w
  /\ (length I0 <= c < length (images w))%nat
  /\ fresh T0 (image_at w c).

(** The store with other positions in the random sources, and the
    computations that neither read nor move these positions. *)
Definition set_rng (g : rng) (w : world) : world :=
  World (tensors w) (images w) g.

Definition rng_indep {A} (m : M A) : Prop :=
  forall g w, m (set_rng g w) = (fst (m w), set_rng g (snd (m w))).

(** A backend for closed examples: they use the random sources, which give
    one half at every draw, and never reach the other functions. *)
Definition stub_backend : Backend := {|
  t_reciprocal := fun v => v;
  t_log := fun v => v;
  t_exp := fun v => v;
  t_sigmoid := fun v => v;
  np_log := fun v => v;
  np_exp := fun v => v;
  F_grid_sample := fun _ _ _ _ => Err RuntimeError;
  py_random := fun _ => Q2Qc (1 # 2);
  torch_random := fun _ => Q2Qc (1 # 2)
|}.

(** ** What nearest-neighbour sampling looks up *)

(** Along an axis of length [n], the coordinate [v] is scaled by [n/2],
    rounded, converted, and clamped into the axis. *)
Definition nearest_index (n : nat) (v : Qc) : nat :=
  Z.to_nat (clamp 0 (Z.of_nat n - 1)
              (to_int64 (round_half_even ((v + 1) * (Qc_of_nat n / 2))%Qc))).

(** Every output pixel is the input pixel at the clamped nearest index. *)
Definition nearest_clamped (x : tensor) (coords : flow) : tensor :=
  let '(_, h, w) := tshape x in
  map (fun chan =>
    map (map (fun '(cx, cy) =>
      nth (nearest_index w cx) (nth (nearest_index h cy) chan []) 0%Qc)) coords) x.

(** Every channel has the height and every row the width that [tshape]
    reads off the first ones. *)
Definition rectangular (x : tensor) : Prop :=
  let '(_, h, w) := tshape x in
  Forall (fun chan => length chan = h /\ Forall (fun row => length row = w) chan) x.

(** The point of index [k] on an axis of length [n] of the identity grid. *)
Definition grid_point (n k : nat) : Qc :=
  if (1 <? n)%nat then (-1 + Qc_of_nat k * (2 / (Qc_of_nat n - 1)))%Qc else (-1)%Qc.

(** ** Closed examples *)

(** a horizontal flip, as an affine matrix *)
Definition flip_mat : mat3 := Mat3 (-1) 0 0 0 1 0 0 0 1.

(** a quarter turn *)
Definition turn_mat : mat3 := Mat3 0 (-1) 0 1 0 0 0 0 1.

(** One image of one channel, one row and two pixels. *)
Definition two_pixels : tensor := [[[Qc_of_Z 1; Qc_of_Z 2]]].

(** One image of one channel, one row and three pixels. *)
Definition three_pixels : tensor := [[[Qc_of_Z 1; Qc_of_Z 2; Qc_of_Z 3]]].

(** A store with one image and nothing pending. *)
Definition clean_world : world :=
  World [two_pixels] [mkImage 0 None None None []] (Rng 0 0).

(** The same image after [set_sample(mode='nearest')] and an [affine] call
    with the flip: the matrix is pending. *)
Definition pending_world : world :=
  World [two_pixels]
    [mkImage 0 None None (Some flip_mat) [("mode"%string, VStr "nearest")]]
    (Rng 0 0).

(** A pixel transform that returns a copy of its argument, as an instance
    that is not random. *)
Definition copy_pixels : Transform :=
  Transform_init 0 (PixelFunc (TensorFunc false (fun _ _ t => Ok t))) None [] [].

Definition copy_instance : RandTransform :=
  Transform_call_kw copy_pixels 1 false [].

(** An affine transform with one annotated parameter, in the way of
    [rotate]; its matrix is the quarter turn whatever the parameter. *)
Definition turn `{Backend} : Transform :=
  Transform_init 1 (AffineFunc (fun _ _ => Ok turn_mat)) None
    [("degrees"%string, uniform_fn)] [].

Definition never_turn `{Backend} : RandTransform :=
  Transform_call_kw turn 0 true [("degrees"%string, VTuple [VInt (-10); VInt 10])].

Definition always_turn `{Backend} : RandTransform :=
  Transform_call_kw turn 1 true [("degrees"%string, VTuple [VInt (-10); VInt 10])].

(** ** Further reference functions *)

(** The index that nearest-neighbour sampling reads along an axis of length
    [n], before any clamping. *)
Definition rounded_index (n : nat) (v : Qc) : Z :=
  to_int64 (round_half_even ((v + 1) * (Qc_of_nat n / 2))%Qc).

(** Zero fill: a pixel whose index falls outside the image is zero. *)
Definition nearest_zero_filled (x : tensor) (coords : flow) : tensor :=
  let '(_, h, w) := tshape x in
  map (fun chan =>
    map (map (fun '(cx, cy) =>
      let ix := rounded_index w cx in
      let iy := rounded_index h cy in
      if (ix <? 0) || (iy <? 0) || (Z.of_nat w <=? ix) || (Z.of_nat h <=? iy)
      then 0%Qc
      else nth (Z.to_nat ix) (nth (Z.to_nat iy) chan []) 0%Qc)) coords) x.

(** The last row of an affine matrix in homogeneous coordinates. *)
Definition affine_row (m : mat3) : Prop :=
  m20 m = 0%Qc /\ m21 m = 0%Qc /\ m22 m = 1%Qc.

(** What [logit_] leaves in place of a pixel value: [-log(1/v - 1)]. *)
Definition logit_value `{Backend} (v : Qc) : Qc :=
  (- t_log (t_reciprocal v - 1))%Qc.

(** The size a [resize] asks for, on an image whose pixels have [shape]. *)
Definition resize_target (shape : nat * nat * nat) (size : size_arg)
  : nat * nat * nat :=
  match size with
  | SizeInt n => (fst (fst shape), n, n)
  | SizeTuple c h w => (c, h, w)
  end.

(** No logit buffer, flow field or affine matrix is pending. *)
Definition settled (i : Image) : Prop :=
  _logit_px i = None /\ _flow i = None /\ _affine_mat i = None.

(** A lighting function that works in place and changes nothing. *)
Definition keep_logit : tensor_func := TensorFunc true (fun _ _ t => Ok t).

(** A lighting function that works in place: [x.mul_(2)]. *)
Definition double_logit : tensor_func :=
  TensorFunc true (fun _ _ t => Ok (tmap (fun v => v * Qc_of_Z 2)%Qc t)).

(** What the loops of [resolve] have established of the [resolved]
    dictionary [d] of the instance [r]: the raw values that are not to be
    drawn are in place, every raw key has a value, the defaults [defs] seen
    so far are in place where no raw value was given, and the keys [ks]
    seen so far have a value. *)
Definition resolved_so_far (r : RandTransform) (defs : dict value)
    (ks : list string) (d : dict value) : Prop :=
  (forall k v, (k, v) ∈ kwargs r -> dict_get (params (tfm r)) k = None ->
     dict_get d k = Some v)
  /\ (forall k, k ∈ (kwargs r).*1 -> dict_in k d = true)
  /\ (forall k v, dict_get defs k = Some v -> k ∉ (kwargs r).*1 ->
        dict_get d k = Some v)
  /\ (forall k, k ∈ ks -> dict_in k d = true).

(** [brightness]-like: an annotated parameter and no default. *)
Definition shade `{Backend} : Transform :=
  Transform_init 2 (LightingFunc keep_logit) None
    [("change"%string, uniform_fn)] [("mode"%string, VStr "soft")].


(** ** The transforms of the file that need no library function *)

(** [get_zoom_mat(sw, sh, c, r)] *)
Definition get_zoom_mat (sw sh c r : Qc) : mat3 := Mat3 sw 0 c 0 sh r 0 0 1.

(** [zoom(scale, row_pct, col_pct)]; [None] stands for the
    [ZeroDivisionError] of [1/scale]. *)
Definition zoom (scale row_pct col_pct : Qc) : option mat3 :=
  if bool_decide (scale = 0%Qc) then None else
  let s := (1 - 1 / scale)%Qc in
  let col_c := (s * (Qc_of_Z 2 * col_pct - 1))%Qc in
  let row_c := (s * (Qc_of_Z 2 * row_pct - 1))%Qc in
  Some (get_zoom_mat (1 / scale) (1 / scale) col_c row_c).

(** [squish(scale, row_pct, col_pct)] *)
Definition squish (scale row_pct col_pct : Qc) : mat3 :=
  if bool_decide (scale <= 1)%Qc then
    let col_c := ((1 - scale) * (Qc_of_Z 2 * col_pct - 1))%Qc in
    get_zoom_mat scale 1 col_c 0
  else
    let row_c := ((1 - 1 / scale) * (Qc_of_Z 2 * row_pct - 1))%Qc in
    get_zoom_mat 1 (1 / scale) 0 row_c.

(** The point that [zoom] and [squish] scale about. *)
Definition focus (pct : Qc) : Qc := (Qc_of_Z 2 * pct - 1)%Qc.

(** [flip_lr]: [x.flip(2)], a new tensor with every row reversed. *)
Definition flip_lr : tensor_func :=
  TensorFunc false (fun _ _ t => Ok (map (map (@rev Qc)) t)).

(** [int(q)]: truncation towards zero. *)
Definition py_int (q : Qc) : Z := Z.quot (Qnum (this q)) (Zpos (Qden (this q))).

(** [l[start:stop]]: a negative bound counts from the end, and both bounds
    are clipped to the list. *)
Definition py_slice {A} (l : list A) (start stop : Z) : list A :=
  let n := Z.of_nat (length l) in
  let norm i := if i <? 0 then Z.max (i + n) 0 else Z.min i n in
  take (Z.to_nat (norm stop - norm start)) (drop (Z.to_nat (norm start)) l).

(** [crop(x, size, row_pct, col_pct)].  [rows,cols = size] cannot fail:
    what [listify(size, 2)] returns has two items. *)
Definition crop (x : tensor) (size : listy Z) (row_pct col_pct : Qc)
  : result tensor :=
  match listify size (QInt 2) with
  | Err e => Err e
  | Ok size =>
      let rows := nth 0 size 0 in
      let cols := nth 1 size 0 in
      let '(_, h, w) := tshape x in
      let row := py_int (Qc_of_Z (Z.of_nat h - rows + 1) * row_pct)%Qc in
      let col := py_int (Qc_of_Z (Z.of_nat w - cols + 1) * col_pct)%Qc in
      Ok (map (fun chan =>
                map (fun r => py_slice r col (col + cols))
                    (py_slice chan row (row + rows))) x)
  end.

(** The pixel of channel [k], row [i] and column [j]. *)
Definition pixel_at (x : tensor) (k i j : nat) : option Qc :=
  match x !! k with
  | Some chan => match chan !! i with Some row => row !! j | None => None end
  | None => None
  end.

(** A 1 x 3 x 3 image. *)
Definition nine_pixels : tensor :=
  [[[Qc_of_Z 1; Qc_of_Z 2; Qc_of_Z 3];
    [Qc_of_Z 4; Qc_of_Z 5; Qc_of_Z 6];
    [Qc_of_Z 7; Qc_of_Z 8; Qc_of_Z 9]]].

(** A pixel transform registered the way [pad] is. *)
Definition first_pad : RandTransform :=
  Transform_call_kw
    (Transform_init 3 (PixelFunc (TensorFunc false (fun _ _ t => Ok t)))
       (Some (-10)) [] []) 1 false [].
(** * Properties *)

(** ** [listify] *)

Lemma py_repeat_singleton {A} (a : A) (n : Z) :
  py_repeat [a] n = replicate (Z.to_nat n) a.
Proof.
  unfold py_repeat. induction (Z.to_nat n) as [|k IH]; simpl; [done|].
  by rewrite IH.
Qed.

Lemma listify_no_count {A} (p : listy A) : listify p QNone = Ok (listy_items p).
Proof.
  unfold listify, listify_count.
  destruct (length (listy_items p) =? 1)%nat eqn:E.
  - apply Nat.eqb_eq in E.
    destruct (listy_items p) as [|a [|b l]]; simpl in E; try discriminate.
    reflexivity.
  - by rewrite Z.eqb_refl.
Qed.

Lemma listify_matching {A} (p : listy A) (q : qarg) :
  Z.of_nat (length (listy_items p)) = listify_count (listy_items p) q ->
  listify p q = Ok (listy_items p).
Proof.
  intros Hn. unfold listify. rewrite <- Hn.
  destruct (length (listy_items p) =? 1)%nat eqn:E.
  - apply Nat.eqb_eq in E.
    destruct (listy_items p) as [|a [|b l]]; simpl in E; try discriminate.
    reflexivity.
  - by rewrite Z.eqb_refl.
Qed.

(** C7. [listify] matches the length of its argument list to the requested
    count [n] (the [int] given as [q], the length of [q], or the length of
    the list itself when [q] is absent): a list of one element is repeated
    [n] times, and any other list whose length differs from [n] fails the
    assertion ['List len mismatch']. *)
Theorem listify_length_matching {A} (p : listy A) (q : qarg) :
  let items := listy_items p in
  let n := listify_count items q in
  (0 <= n -> forall a, items = [a] ->
     listify p q = Ok (replicate (Z.to_nat n) a))
  /\ (length items <> 1%nat -> Z.of_nat (length items) <> n ->
      exists msg, listify p q = Err (AssertionError msg)).
Proof.
  intros items n. split.
  - intros Hn a Ha. unfold listify. fold items. fold n. rewrite Ha. simpl.
    rewrite py_repeat_singleton, length_replicate, Z2Nat.id by done.
    by rewrite Z.eqb_refl.
  - intros H1 Hne. unfold listify. fold items. fold n.
    apply Nat.eqb_neq in H1. rewrite H1.
    apply Z.eqb_neq in Hne. rewrite Hne. eauto.
Qed.

Lemma listify_length_matching_witness :
  listify (PSeq [7]) (QInt 3) = Ok [7; 7; 7]
  /\ exists msg, listify (PSeq [1; 2]) (QInt 3) = Err (AssertionError msg).
Proof.
  split.
  - apply (proj1 (listify_length_matching (PSeq [7]) (QInt 3)));
      [simpl; lia | reflexivity].
  - apply (proj2 (listify_length_matching (PSeq [1; 2]) (QInt 3))); simpl; lia.
Defined.

(** Inside [uniform] the count is left out, so the draw never fails there. *)
Lemma uniform_size_listified `{Backend} (low high : Qc) (sz : listy nat) (g : rng) :
  uniform low high (Some sz) g = FloatTensor_uniform_ (listy_items sz) low high g.
Proof. unfold uniform, bind, lift. by rewrite listify_no_count. Qed.

(** ** Dictionaries *)

Lemma dict_set_fresh {V} (d : dict V) k v :
  k ∉ d.*1 -> dict_set d k v = d ++ [(k, v)].
Proof.
  induction d as [|[k' v'] d IH]; simpl; [done|].
  intros Hk. apply not_elem_of_cons in Hk as [Hne Hk].
  destruct (String.eqb_spec k k'); [done|]. by rewrite IH.
Qed.

Lemma dict_merge_fresh {V} (a b : dict V) :
  NoDup b.*1 -> (forall k, k ∈ b.*1 -> k ∉ a.*1) -> dict_merge a b = a ++ b.
Proof.
  unfold dict_merge. revert a.
  induction b as [|[k v] b IH]; intros a Hnd Hfresh; simpl.
  - by rewrite app_nil_r.
  - simpl in Hnd. pose proof (NoDup_cons_1_1 _ _ Hnd) as Hk.
    apply NoDup_cons_1_2 in Hnd.
    rewrite dict_set_fresh by (apply Hfresh; simpl; left).
    rewrite IH; [by rewrite <- app_assoc | done |].
    intros k' Hk'. rewrite fmap_app. simpl. intros Hin.
    apply elem_of_app in Hin as [Hin|Hin].
    + by apply (Hfresh k'); [simpl; right|].
    + apply list_elem_of_singleton in Hin. by subst.
Qed.

Lemma dict_merge_nil_l {V} (b : dict V) : NoDup b.*1 -> dict_merge [] b = b.
Proof.
  intros Hnd. rewrite dict_merge_fresh; [done | done |].
  intros k _ Hin. by apply elem_of_nil in Hin.
Qed.

(** ** The pipeline: short cut and order *)

(** C6. With an empty transform list (or none) and no target size,
    [apply_tfms] returns the image object it was given, and the store is
    left as it was: nothing is cloned, refreshed or drawn. *)
Theorem apply_tfms_noop `{Backend} (x : nat) (do_resolve : bool)
    (xtra : option (list (nat * dict value))) (kw : dict value) (w : world) :
  apply_tfms (PSeq []) x do_resolve xtra None kw w = (Ok x, w)
  /\ apply_tfms PNone x do_resolve xtra None kw w = (Ok x, w).
Proof. split; reflexivity. Qed.

Section Sorted.
Context {A : Type} (key : A -> Z).

Lemma insert_sorted_perm a l : Permutation (insert_sorted key a l) (a :: l).
Proof.
  induction l as [|b l IH]; simpl; [done|].
  destruct (key a <=? key b); [done|].
  rewrite IH. apply perm_swap.
Qed.

Lemma py_sorted_perm l : Permutation (py_sorted key l) l.
Proof.
  induction l as [|a l IH]; simpl; [done|].
  rewrite insert_sorted_perm. by constructor.
Qed.

Lemma insert_sorted_sorted a l :
  StronglySorted (key_le key) l -> StronglySorted (key_le key) (insert_sorted key a l).
Proof.
  induction 1 as [|b l Hs IH Hb]; simpl.
  - repeat constructor.
  - destruct (Z.leb_spec (key a) (key b)) as [Hle|Hgt].
    + constructor; [by constructor|].
      constructor; [done|].
      eapply Forall_impl; [|exact Hb]. unfold key_le in *. intros; simpl in *; lia.
    + constructor; [done|].
      rewrite insert_sorted_perm. constructor; [unfold key_le; lia | done].
Qed.

Lemma py_sorted_sorted l : StronglySorted (key_le key) (py_sorted key l).
Proof.
  induction l as [|a l IH]; simpl; [constructor|].
  by apply insert_sorted_sorted.
Qed.

Lemma insert_sorted_stable k a l :
  filter (fun b => key b = k) (insert_sorted key a l)
  = filter (fun b => key b = k) (a :: l).
Proof.
  induction l as [|b l IH]; simpl; [done|].
  destruct (Z.leb_spec (key a) (key b)) as [Hle|Hgt]; [done|].
  rewrite (filter_cons _ b), IH, !filter_cons.
  repeat case_decide; try done; lia.
Qed.

Lemma py_sorted_stable k l :
  filter (fun b => key b = k) (py_sorted key l) = filter (fun b => key b = k) l.
Proof.
  induction l as [|a l IH]; simpl; [done|].
  rewrite insert_sorted_stable, !filter_cons, IH. done.
Qed.
End Sorted.

(** C1, as the source has it.  The priorities of the registered transforms
    are pad -10, coord 4, affine 5, lighting 8, pixel 10, so the sort of
    [apply_tfms] runs padding first, then coordinate warps, then affine
    transforms, then lighting, then the other pixel transforms; the sorted
    list is a permutation of the caller's list, ascending in [order], and
    transforms of equal [order] keep the caller's order. *)
Theorem pipeline_order_by_priority :
  Forall (fun e =>
      init_order (snd (fst e)) (snd e)
      = match snd (fst e) with
        | TfmCoord => 4
        | TfmAffine => 5
        | TfmLighting => 8
        | TfmPixel => if String.eqb (fst (fst e)) "pad" then -10 else 10
        end) registered
  /\ forall tfms : list RandTransform,
       Permutation (pipeline_order tfms) tfms
       /\ StronglySorted (fun a b => order (tfm a) <= order (tfm b))
            (pipeline_order tfms)
       /\ forall k, filter (fun o => order (tfm o) = k) (pipeline_order tfms)
                    = filter (fun o => order (tfm o) = k) tfms.
Proof.
  split.
  - unfold registered. repeat constructor.
  - intros tfms. unfold pipeline_order. split; [|split].
    + apply py_sorted_perm.
    + apply (py_sorted_sorted (fun o => order (tfm o))).
    + intros k. apply (py_sorted_stable (fun o => order (tfm o))).
Qed.

(** C1 as stated fails at its first link: an affine transform has priority
    5 and a coordinate transform priority 4. *)
Lemma priority_chain_fails :
  ~ (class_order TfmAffine < class_order TfmCoord
     /\ class_order TfmCoord < init_order TfmPixel (Some (-10))
     /\ init_order TfmPixel (Some (-10)) < class_order TfmPixel
     /\ class_order TfmPixel < class_order TfmLighting).
Proof. simpl. lia. Qed.

(** ** An instance that was never resolved *)

(** C10. An instance made by calling the descriptor with keyword arguments
    only has [do_run = True] and an empty [resolved]; calling it on an image
    before any [resolve] therefore runs the descriptor with the keyword
    arguments of the call alone: the result is that of [Transform.__call__]
    on the same arguments, whatever the instance's raw arguments and
    probability are and whatever defaults and annotations the descriptor
    holds. *)
Theorem unresolved_call_runs `{Backend} (t : Transform) (pr : Qc)
    (ir : bool) (raw : dict value) (x : nat) (args : list value)
    (kw : dict value) (w : world) :
  NoDup kw.*1 ->
  let r := Transform_call_kw t pr ir raw in
  do_run r = true /\ resolved r = []
  /\ RandTransform_call r x args kw w = Transform_call t x args kw w
  /\ forall ps ds,
       RandTransform_call r x args kw w
       = Transform_call (mkTransform (tfm_id t) (order t) (func t) ps ds)
           x args kw w.
Proof.
  intros Hnd r. unfold RandTransform_call. simpl.
  rewrite dict_merge_nil_l by done. repeat split; done.
Qed.

(** ** The store *)

Lemma images_upd_tensor l t w : images (upd_tensor l t w) = images w.
Proof. done. Qed.
Lemma images_push_tensor t w : images (push_tensor t w) = images w.
Proof. done. Qed.
Lemma tensors_upd_image x f w : tensors (upd_image x f w) = tensors w.
Proof. done. Qed.
Lemma tensors_push_image i w : tensors (push_image i w) = tensors w.
Proof. done. Qed.
Lemma image_at_upd_tensor l t w x : image_at (upd_tensor l t w) x = image_at w x.
Proof. done. Qed.
Lemma image_at_push_tensor t w x : image_at (push_tensor t w) x = image_at w x.
Proof. done. Qed.
Lemma tensor_at_upd_image x f w l : tensor_at (upd_image x f w) l = tensor_at w l.
Proof. done. Qed.
Lemma tensor_at_push_image i w l : tensor_at (push_image i w) l = tensor_at w l.
Proof. done. Qed.

Lemma length_images_upd_image x f w :
  length (images (upd_image x f w)) = length (images w).
Proof. unfold upd_image. simpl. apply length_insert. Qed.

Lemma length_tensors_upd_tensor l t w :
  length (tensors (upd_tensor l t w)) = length (tensors w).
Proof. unfold upd_tensor. simpl. apply length_insert. Qed.

Lemma image_at_upd_image x f w :
  (x < length (images w))%nat -> image_at (upd_image x f w) x = f (image_at w x).
Proof.
  intros Hx. unfold image_at at 1, upd_image. simpl.
  by rewrite list_lookup_insert_eq.
Qed.

Lemma image_at_upd_image_ne x y f w :
  x <> y -> image_at (upd_image y f w) x = image_at w x.
Proof.
  intros Hx. unfold image_at, upd_image. simpl.
  by rewrite list_lookup_insert_ne.
Qed.

Lemma tensor_at_push_tensor_new t w :
  tensor_at (push_tensor t w) (length (tensors w)) = t.
Proof.
  unfold tensor_at, push_tensor. simpl.
  by rewrite lookup_app_r, Nat.sub_diag.
Qed.

Lemma tensor_at_push_tensor_old t w l :
  (l < length (tensors w))%nat -> tensor_at (push_tensor t w) l = tensor_at w l.
Proof.
  intros Hl. unfold tensor_at, push_tensor. simpl. by rewrite lookup_app_l.
Qed.

Lemma tensor_at_upd_tensor_map f l w :
  tensor_at (upd_tensor l (tmap f (tensor_at w l)) w) l = tmap f (tensor_at w l).
Proof.
  unfold tensor_at, upd_tensor. cbn [tensors].
  destruct (decide (l < length (tensors w))%nat) as [Hl|Hl].
  - by rewrite list_lookup_insert_eq.
  - rewrite list_insert_ge by lia.
    destruct (tensors w !! l) eqn:E; [|done].
    apply lookup_lt_Some in E. lia.
Qed.

Lemma tshape_tmap f t : tshape (tmap f t) = tshape t.
Proof.
  unfold tshape, tmap. rewrite length_map.
  destruct t as [|c t]; simpl; [done|]. rewrite length_map.
  destruct c as [|r c]; simpl; [done|]. by rewrite length_map.
Qed.

(** The flow field that materialisation samples through: the pending flow
    field, or the identity grid of the image's shape, with the pending
    affine matrix folded in. *)
Lemma Image_flow_folds x w :
  (x < length (images w))%nat ->
  let i := image_at w x in
  let fl := affine_mult
              (default (affine_grid (tshape (tensor_at w (_px i)))) (_flow i))
              (_affine_mat i) in
  exists w',
    Image_flow x w = (Ok fl, w')
    /\ tensors w' = tensors w
    /\ length (images w') = length (images w)
    /\ image_at w' x = set_affine_mat None (set_flow (Some fl) i).
Proof.
  intros Hx i fl. unfold Image_flow, Image_shape, bind, get_image, read_tensor,
    modify_image, ret. fold i.
  destruct (_flow i) as [f0|] eqn:Ef; destruct (_affine_mat i) as [m|] eqn:Em; simpl.
  all: rewrite ?image_at_upd_image by (rewrite ?length_images_upd_image; done).
  all: fold i; simpl; rewrite ?Ef, ?Em; simpl.
  all: rewrite ?image_at_upd_image by (rewrite ?length_images_upd_image; done).
  all: fold i; simpl; rewrite ?Ef, ?Em; simpl.
  all: eexists; split; [reflexivity|].
  all: rewrite ?length_images_upd_image, ?tensors_upd_image.
  all: rewrite ?image_at_upd_image by (rewrite ?length_images_upd_image; done).
  all: repeat split; try done.
  all: unfold set_affine_mat, set_flow; simpl; fold i; rewrite ?Ef, ?Em; try done.
  all: destruct i; simpl in *; subst fl; congruence.
Qed.

(** ** Materialisation *)

(** C5. [refresh] reconciles the deferred state.  The logit buffer, if any,
    is mapped through [sigmoid_] and becomes the pixels; if an affine matrix
    or a flow field is pending, the matrix is folded into the flow field
    (the identity grid when none is pending) and the pixels are resampled
    through it once.  When [refresh] returns, no logit buffer, flow field or
    affine matrix is pending.  It raises only when the resampler does, and
    then the matrix is folded already and a flow field stays pending. *)
Theorem refresh_reconciles `{Backend} (x : nat) (w : world) :
  (x < length (images w))%nat ->
  let i := image_at w x in
  let t1 := match _logit_px i with
            | Some l => tmap t_sigmoid (tensor_at w l)
            | None => tensor_at w (_px i)
            end in
  let fl := affine_mult (default (affine_grid (tshape t1)) (_flow i))
              (_affine_mat i) in
  let resample :=
    bool_decide (_affine_mat i <> None) || bool_decide (_flow i <> None) in
  match Image_refresh x w with
  | (Ok _, w') =>
      let i' := image_at w' x in
      _logit_px i' = None /\ _flow i' = None /\ _affine_mat i' = None
      /\ (if resample
          then grid_sample_kw t1 fl (sample_kwargs i) = Ok (tensor_at w' (_px i'))
          else tensor_at w' (_px i') = t1)
  | (Err e, w') =>
      let i' := image_at w' x in
      resample = true
      /\ grid_sample_kw t1 fl (sample_kwargs i) = Err e
      /\ _logit_px i' = None /\ _affine_mat i' = None /\ is_Some (_flow i')
  end.
Proof.
  intros Hx i t1 fl resample.
  (* the world once the logit buffer is flushed *)
  set (w1 := match _logit_px i with
             | Some l =>
                 upd_image x (set_logit_px None)
                   (upd_image x (set_px l)
                      (upd_tensor l (tmap t_sigmoid (tensor_at w l)) w))
             | None => w
             end).
  assert (Hx1 : (x < length (images w1))%nat).
  { subst w1. destruct (_logit_px i); [|done].
    by rewrite !length_images_upd_image. }
  assert (Hi1 : image_at w1 x
                = match _logit_px i with
                  | Some l => set_logit_px None (set_px l i)
                  | None => i
                  end).
  { subst w1. destruct (_logit_px i) as [l|]; [|done].
    rewrite !image_at_upd_image by (rewrite ?length_images_upd_image; done).
    done. }
  assert (Ht1 : tensor_at w1 (_px (image_at w1 x)) = t1).
  { rewrite Hi1. subst w1 t1. destruct (_logit_px i) as [l|]; [|done].
    simpl. rewrite !tensor_at_upd_image. apply tensor_at_upd_tensor_map. }
  assert (Hstep : Image_refresh x w
    = (if bool_decide (_affine_mat (image_at w1 x) <> None)
          || bool_decide (_flow (image_at w1 x) <> None)
       then
         t <- read_tensor (_px (image_at w1 x)) ;;
         f <- Image_flow x ;;
         i <- get_image x ;;
         r <- lift (grid_sample_kw t f (sample_kwargs i)) ;;
         l <- alloc_tensor r ;;
         modify_image x (set_px l) ;;
         modify_image x (set_sample_kwargs []) ;;
         modify_image x (set_flow None)
       else ret tt) w1).
  { unfold Image_refresh. subst w1. unfold bind at 1. unfold get_image at 1.
    fold i. destruct (_logit_px i); reflexivity. }
  rewrite Hstep. clear Hstep.
  assert (Hsame : _affine_mat (image_at w1 x) = _affine_mat i
                  /\ _flow (image_at w1 x) = _flow i
                  /\ sample_kwargs (image_at w1 x) = sample_kwargs i
                  /\ _logit_px (image_at w1 x) = None).
  { rewrite Hi1. destruct (_logit_px i) eqn:El; simpl; rewrite ?El; done. }
  destruct Hsame as (Ha & Hf & Hk & Hl).
  rewrite Ha, Hf. fold resample.
  destruct resample eqn:Hr.
  - destruct (Image_flow_folds x w1 Hx1) as (w2 & Hflow & Hts & Hlen & Hi2).
    cbv zeta in Hflow, Hi2. rewrite Ht1, Ha, Hf in Hflow. fold fl in Hflow.
    rewrite Ht1, Ha, Hf in Hi2. fold fl in Hi2.
    unfold bind, read_tensor. rewrite Ht1, Hflow. unfold get_image at 1.
    rewrite Hi2. simpl. rewrite Hk.
    destruct (grid_sample_kw t1 fl (sample_kwargs i)) as [r|e]; simpl.
    + unfold modify_image, alloc_tensor.
      rewrite !image_at_upd_image
        by (rewrite ?length_images_upd_image, ?images_push_tensor; lia).
      rewrite image_at_push_tensor, Hi2. simpl.
      repeat split; try done.
      rewrite !tensor_at_upd_image. by rewrite tensor_at_push_tensor_new.
    + rewrite Hi2. simpl. repeat split; done.
  - simpl. rewrite Hl, Ha, Hf, Ht1.
    apply orb_false_iff in Hr as [Hr1 Hr2].
    apply bool_decide_eq_false in Hr1, Hr2.
    destruct (_affine_mat i), (_flow i); try done; exfalso; auto.
Qed.

Lemma upd_image_twice x f g w :
  upd_image x f (upd_image x g w) = upd_image x (fun i => f (g i)) w.
Proof.
  unfold upd_image at 1 3. rewrite tensors_upd_image. f_equal.
  destruct (decide (x < length (images w))%nat) as [Hx|Hx].
  - rewrite image_at_upd_image by done. unfold upd_image. simpl.
    by rewrite list_insert_insert_eq.
  - unfold upd_image. simpl. by rewrite !list_insert_ge by (rewrite ?length_insert; lia).
Qed.

Lemma upd_image_ext x f g w :
  f (image_at w x) = g (image_at w x) -> upd_image x f w = upd_image x g w.
Proof. intros E. unfold upd_image. by rewrite E. Qed.

Lemma matmul_assoc a b c : matmul (matmul a b) c = matmul a (matmul b c).
Proof. unfold matmul. simpl. f_equal; ring. Qed.

Lemma matmul_eye_l a : matmul eye3 a = a.
Proof. destruct a. unfold matmul, eye3. simpl. f_equal; ring. Qed.

(** ** Affine transforms *)

(** One [affine] call multiplies the pending matrix (the identity when none
    is pending) on the right by the matrix of the function. *)
Lemma Image_affine_run (x : nat) (f : affine_func) args kw m w :
  f args kw = Ok m ->
  Image_affine x f args kw w
  = (Ok x, upd_image x
             (fun i => set_affine_mat
                (Some (matmul (default eye3 (_affine_mat i)) m)) i) w).
Proof.
  intros Hf. unfold Image_affine, Image_affine_mat, bind, lift, modify_image,
    get_image, ret. rewrite Hf. simpl.
  destruct (_affine_mat (image_at w x)) as [a|] eqn:Ea; simpl.
  - rewrite ?Ea. simpl. f_equal. apply upd_image_ext. simpl. by rewrite Ea.
  - destruct (decide (x < length (images w))%nat) as [Hx|Hx].
    + rewrite image_at_upd_image by done. simpl.
      rewrite upd_image_twice. f_equal. apply upd_image_ext. simpl. by rewrite Ea.
    + assert (Hd : forall h, upd_image x h w = w).
      { intros h. destruct w. unfold upd_image. simpl. f_equal.
        apply list_insert_ge. simpl in Hx. lia. }
      by rewrite !Hd.
Qed.

(** C4. [affine] composes by right multiplication, so applying [f] then
    [g] leaves the image in the same state as applying one affine transform
    whose matrix is the product of the two matrices; materialising gives the
    same pixels.  Arithmetic is exact here, so the equality is exact. *)
Theorem affine_composition `{Backend} (x : nat) (f g fg : affine_func)
    (af ag afg : list value) (kf kg kfg : dict value) (mf mg : mat3) (w : world) :
  (x < length (images w))%nat ->
  f af kf = Ok mf -> g ag kg = Ok mg -> fg afg kfg = Ok (matmul mf mg) ->
  let a := default eye3 (_affine_mat (image_at w x)) in
  (exists w1,
      (Image_affine x f af kf ;; Image_affine x g ag kg) w = (Ok x, w1)
      /\ Image_affine x fg afg kfg w = (Ok x, w1)
      /\ _affine_mat (image_at w1 x) = Some (matmul (matmul a mf) mg))
  /\ (Image_affine x f af kf ;; Image_affine x g ag kg ;; Image_px x) w
     = (Image_affine x fg afg kfg ;; Image_px x) w.
Proof.
  intros Hx Hf Hg Hfg a.
  assert (E : (Image_affine x f af kf ;; Image_affine x g ag kg) w
              = Image_affine x fg afg kfg w).
  { unfold bind. rewrite (Image_affine_run x f af kf mf w Hf).
    rewrite (Image_affine_run x g ag kg mg _ Hg).
    rewrite (Image_affine_run x fg afg kfg _ w Hfg).
    rewrite upd_image_twice. f_equal. apply upd_image_ext. simpl.
    by rewrite matmul_assoc. }
  split.
  - eexists. split; [|split].
    + rewrite E. apply (Image_affine_run x fg afg kfg _ w Hfg).
    + apply (Image_affine_run x fg afg kfg _ w Hfg).
    + rewrite image_at_upd_image by done. simpl. fold a.
      by rewrite matmul_assoc.
  - unfold bind in E |- *.
    destruct (Image_affine x f af kf w) as [[y|e] w1];
      destruct (Image_affine x fg afg kfg w) as [[y'|e'] w2]; simpl in *.
    + destruct (Image_affine x g ag kg w1) as [[z|e''] w3]; congruence.
    + destruct (Image_affine x g ag kg w1) as [[z|e''] w3]; congruence.
    + congruence.
    + congruence.
Qed.

(** ** Resolution *)

Lemma hoare_ret {St A} (P : St -> Prop) (a : A) (Q : A -> St -> Prop) E :
  (forall s, P s -> Q a s) -> hoare P (ret a) Q E.
Proof. intros HQ s Hs. by apply HQ. Qed.

Lemma hoare_raise {St A} (P : St -> Prop) e (Q : A -> St -> Prop) (E : St -> Prop) :
  (forall s, P s -> E s) -> hoare P (raise e) Q E.
Proof. intros HE s Hs. by apply HE. Qed.

Lemma hoare_lift {St A} (P : St -> Prop) (r : result A) (Q : A -> St -> Prop)
    (E : St -> Prop) :
  (forall s, P s -> E s) -> (forall a s, r = Ok a -> P s -> Q a s) ->
  hoare P (lift r) Q E.
Proof. intros HE HQ s Hs. destruct r; simpl; [by apply HQ | by apply HE]. Qed.

Lemma hoare_bind {St A B} (P : St -> Prop) (m : ST St A) (k : A -> ST St B)
    (Q : A -> St -> Prop) (R : B -> St -> Prop) (E : St -> Prop) :
  hoare P m Q E -> (forall a, hoare (Q a) (k a) R E) -> hoare P (bind m k) R E.
Proof.
  intros Hm Hk s Hs. unfold bind. specialize (Hm s Hs).
  destruct (m s) as [[a|e] s']; [by apply Hk | done].
Qed.

Lemma hoare_weaken {St A} (P P' : St -> Prop) (m : ST St A)
    (Q Q' : A -> St -> Prop) (E E' : St -> Prop) :
  hoare P' m Q' E' ->
  (forall s, P s -> P' s) -> (forall a s, Q' a s -> Q a s) ->
  (forall s, E' s -> E s) ->
  hoare P m Q E.
Proof.
  intros Hm HP HQ HE s Hs. specialize (Hm s (HP s Hs)).
  destruct (m s) as [[a|e] s']; auto.
Qed.

(** A loop keeps what its body keeps. *)
Lemma hoare_for_each {St A} (Inv : St -> Prop) (l : list A) (body : A -> ST St unit) :
  (forall a, hoare Inv (body a) (fun _ => Inv) Inv) ->
  hoare Inv (for_each l body) (fun _ => Inv) Inv.
Proof.
  intros Hb. induction l as [|a l' IH]; simpl.
  - by apply hoare_ret.
  - eapply hoare_bind; [apply Hb|]. intros ?. apply IH.
Qed.

Section Resolve.
Context `{Backend} (r0 : RandTransform).

Let J := same_instance r0.

Lemma hoare_self_get :
  hoare J self_get (fun r s => J s /\ r = fst s) J.
Proof. intros s Hs. simpl. done. Qed.

Lemma hoare_resolved_set k v : hoare J (resolved_set k v) (fun _ => J) J.
Proof. intros [r g] Hs. simpl. exact Hs. Qed.

Lemma hoare_with_rng {A} (m : ST rng A) : hoare J (with_rng m) (fun _ => J) J.
Proof.
  intros [r g] Hs. unfold with_rng. simpl.
  destruct (m g) as [[a|e] g']; exact Hs.
Qed.

Lemma hoare_resolve_loops :
  hoare J
    (self_update (set_resolved []) ;;
     for_each (kwargs r0) (fun '(k, v) =>
       match dict_get (params (tfm r0)) k with
       | Some rand_func =>
           a <- lift (value_listy v) ;;
           args <- lift (listify a QNone) ;;
           r <- with_rng (rand_func args) ;;
           resolved_set k r
       | None => resolved_set k v
       end) ;;
     for_each (def_args (tfm r0)) (fun '(k, v) =>
       self <- self_get ;;
       if dict_in k (resolved self) then ret tt else resolved_set k v) ;;
     for_each (params (tfm r0)) (fun '(k, v) =>
       self <- self_get ;;
       if dict_in k (resolved self) then ret tt
       else r <- with_rng (v []) ;; resolved_set k r))
    (fun _ => J) J.
Proof.
  eapply hoare_bind with (Q := fun _ => J).
  { intros [r g] Hs. exact Hs. }
  intros ?. eapply hoare_bind with (Q := fun _ => J).
  { apply hoare_for_each. intros [k v].
    destruct (dict_get (params (tfm r0)) k) as [rf|]; [|apply hoare_resolved_set].
    eapply hoare_bind with (Q := fun _ => J); [by apply hoare_lift|].
    intros a'. eapply hoare_bind with (Q := fun _ => J); [by apply hoare_lift|].
    intros args. eapply hoare_bind; [apply hoare_with_rng|].
    intros v'. apply hoare_resolved_set. }
  intros ?. eapply hoare_bind with (Q := fun _ => J).
  { apply hoare_for_each. intros [k v].
    eapply hoare_bind; [apply hoare_self_get|].
    intros self. destruct (dict_in k (resolved self)).
    - apply hoare_ret. by intros s [Hs _].
    - eapply hoare_weaken; [apply hoare_resolved_set | | done | done].
      by intros s [Hs _]. }
  intros ?. apply hoare_for_each. intros [k v].
  eapply hoare_bind; [apply hoare_self_get|].
  intros self. destruct (dict_in k (resolved self)).
  - apply hoare_ret. by intros s [Hs _].
  - eapply hoare_bind with (Q := fun _ => J).
    + eapply hoare_weaken; [apply hoare_with_rng | | done | done].
      by intros s [Hs _].
    + intros v'. apply hoare_resolved_set.
Qed.

(** The last statement of [resolve]: [self.do_run = rand_bool(self.p)]. *)
Lemma resolve_draws_do_run (s : RandTransform * rng) :
  (b <- with_rng (rand_bool (p r0) None) ;;
   match b with
   | VBool b => self_update (set_do_run b)
   | _ => raise TypeError
   end) s
  = (Ok tt, (set_do_run (Qcltb (py_random (py_pos (snd s))) (p r0)) (fst s),
             Rng (S (py_pos (snd s))) (torch_pos (snd s)))).
Proof.
  destruct s as [r g]. unfold bind, with_rng, rand_bool, uniform, bind,
    random_uniform, bind, draw_py, ret, self_update. simpl.
  replace (0 + (1 - 0) * py_random (py_pos g))%Qc with (py_random (py_pos g))
    by ring.
  done.
Qed.
End Resolve.

(** C8. With [is_random] set, a call of [resolve] that returns has drawn
    [do_run = rand_bool(p)], that is [random() < p] for the next output of
    [random.random()], which lies in [0, 1): [do_run] is false when [p = 0]
    and true when [p = 1].  The call raises only if a distribution generator
    does, before the draw, and then [do_run] is what it was. *)
Theorem resolve_probability_boundary `{Backend} (r : RandTransform) (g : rng) :
  (forall n, (0 <= py_random n)%Qc /\ (py_random n < 1)%Qc) ->
  is_random r = true ->
  match RandTransform_resolve (r, g) with
  | (Ok _, (r', _)) =>
      (exists n, do_run r' = Qcltb (py_random n) (p r))
      /\ (p r = 0%Qc -> do_run r' = false)
      /\ (p r = 1%Qc -> do_run r' = true)
  | (Err _, (r', _)) => do_run r' = do_run r
  end.
Proof.
  intros Hrand Hir. unfold RandTransform_resolve.
  unfold bind at 1. unfold self_get at 1. cbn [fst]. rewrite Hir. cbn [negb].
  pose proof (hoare_resolve_loops r (r, g)) as Hloops.
  assert (Hre : forall (m1 m2 m3 m4 m5 : ST (RandTransform * rng) unit) s,
    (m1 ;; m2 ;; m3 ;; m4 ;; m5) s = ((m1 ;; m2 ;; m3 ;; m4) ;; m5) s).
  { intros. unfold bind. destruct (m1 s) as [[[]|?] ?]; [|done].
    destruct (m2 _) as [[[]|?] ?]; [|done].
    destruct (m3 _) as [[[]|?] ?]; done. }
  rewrite Hre. clear Hre. unfold bind at 1.
  match type of Hloops with _ -> match ?m _ with _ => _ end =>
    destruct (m (r, g)) as [[[]|e] [r' g']] eqn:El end.
  - specialize (Hloops ltac:(by repeat split)).
    destruct Hloops as (Ht & Hk & Hp & Hd & Hi).
    rewrite (resolve_draws_do_run r (r', g')). simpl.
    set (u := py_random (py_pos g')). destruct (Hrand (py_pos g')) as [H0 H1].
    fold u in H0, H1. split; [by exists (py_pos g')|]. split; intros Hpr; rewrite Hpr.
    + unfold Qcltb. apply bool_decide_eq_false. by apply Qcle_not_lt.
    + unfold Qcltb. by apply bool_decide_eq_true.
  - specialize (Hloops ltac:(by repeat split)).
    by destruct Hloops as (Ht & Hk & Hp & Hd & Hi).
Qed.

(** ** Clone isolation *)

Lemma hoare_get_image (P E : world -> Prop) x :
  hoare P (get_image x) (fun i w => P w /\ i = image_at w x) E.
Proof. intros w Hw. simpl. done. Qed.

Lemma hoare_read_tensor (P : world -> Prop) l :
  hoare P (read_tensor l) (fun _ w => P w) P.
Proof. intros w Hw. simpl. done. Qed.

Lemma hoare_pure {St A} (P : St -> Prop) (m : ST St A) (Q : A -> St -> Prop)
    (E : St -> Prop) (phi : Prop) :
  (phi -> hoare P m Q E) -> hoare (fun s => P s /\ phi) m Q E.
Proof. intros Hm s [Hs Hphi]. by apply Hm. Qed.

Section Frame.
Context `{Backend} (T0 : list tensor) (I0 : list Image) (c : nat).

Let Inv := clone_inv T0 I0 c.

Lemma inv_upd_tensor l t w :
  (length T0 <= l)%nat -> Inv w -> Inv (upd_tensor l t w).
Proof.
  intros Hl (HT & HI & Hc & Hf). split; [|done].
  destruct HT as [k Hk]. unfold upd_tensor. simpl. rewrite Hk.
  rewrite insert_app_r_alt by done. by eexists.
Qed.

Lemma inv_push_tensor t w :
  Inv w -> Inv (push_tensor t w) /\ (length T0 <= length (tensors w))%nat.
Proof.
  intros (HT & HI & Hc & Hf). split.
  - split; [|done]. unfold push_tensor. simpl. by apply prefix_app_r.
  - by apply prefix_length.
Qed.

Lemma inv_upd_image f w :
  (fresh T0 (image_at w c) -> fresh T0 (f (image_at w c))) ->
  Inv w -> Inv (upd_image c f w).
Proof.
  intros Hfr (HT & HI & Hc & Hf). split; [done|]. split; [|split].
  - destruct HI as [k Hk]. unfold upd_image. simpl. rewrite Hk.
    rewrite insert_app_r_alt by lia. by eexists.
  - rewrite length_images_upd_image. done.
  - rewrite image_at_upd_image by lia. by apply Hfr.
Qed.

Lemma hoare_write_tensor l t :
  (length T0 <= l)%nat -> hoare Inv (write_tensor l t) (fun _ => Inv) Inv.
Proof. intros Hl w Hw. simpl. by apply inv_upd_tensor. Qed.

Lemma hoare_alloc_tensor t :
  hoare Inv (alloc_tensor t) (fun l w => Inv w /\ (length T0 <= l)%nat) Inv.
Proof. intros w Hw. simpl. by apply inv_push_tensor. Qed.

Lemma hoare_modify_image f :
  (forall i, fresh T0 i -> fresh T0 (f i)) ->
  hoare Inv (modify_image c f) (fun _ => Inv) Inv.
Proof. intros Hf w Hw. simpl. apply inv_upd_image; [apply Hf | done]. Qed.

Lemma fresh_set_px l i : (length T0 <= l)%nat -> fresh T0 i -> fresh T0 (set_px l i).
Proof. intros Hl [H1 H2]. split; simpl; done. Qed.

Lemma fresh_set_logit_px l i :
  (forall l', l = Some l' -> (length T0 <= l')%nat) ->
  fresh T0 i -> fresh T0 (set_logit_px l i).
Proof. intros Hl [H1 H2]. split; simpl; done. Qed.

Lemma fresh_set_flow f i : fresh T0 i -> fresh T0 (set_flow f i).
Proof. intros [H1 H2]. split; simpl; done. Qed.

Lemma fresh_set_affine_mat m i : fresh T0 i -> fresh T0 (set_affine_mat m i).
Proof. intros [H1 H2]. split; simpl; done. Qed.

Lemma fresh_set_sample_kwargs kw i : fresh T0 i -> fresh T0 (set_sample_kwargs kw i).
Proof. intros [H1 H2]. split; simpl; done. Qed.

Lemma inv_fresh w : Inv w -> fresh T0 (image_at w c).
Proof. by intros (_ & _ & _ & Hf). Qed.


Local Abbreviation keeps m := (hoare Inv m (fun _ => Inv) Inv).
Local Abbreviation gives_fresh m :=
  (hoare Inv m (fun l w => Inv w /\ (length T0 <= l)%nat) Inv).
Local Abbreviation gives_clone m := (hoare Inv m (fun y w => Inv w /\ y = c) Inv).

Lemma hoare_get_clone :
  hoare Inv (get_image c) (fun i w => Inv w /\ fresh T0 i) Inv.
Proof. intros w Hw. simpl. split; [done | by apply inv_fresh]. Qed.

(** One step of a sequence: the step keeps the invariant, and what is
    known of its result is a fact [phi] that does not depend on the
    state. *)
Lemma hoare_step {A B} (m : M A) (k : A -> M B) (phi : A -> Prop)
    (Q : B -> world -> Prop) :
  hoare Inv m (fun a w => Inv w /\ phi a) Inv ->
  (forall a, phi a -> hoare Inv (k a) Q Inv) ->
  hoare Inv (bind m k) Q Inv.
Proof.
  intros Hm Hk. eapply hoare_bind; [exact Hm|].
  intros a. apply hoare_pure. apply Hk.
Qed.

Lemma keeps_step {A B} (m : M A) (k : A -> M B) (Q : B -> world -> Prop) :
  keeps m -> (forall a, hoare Inv (k a) Q Inv) -> hoare Inv (bind m k) Q Inv.
Proof. intros Hm Hk. eapply hoare_bind; [exact Hm | exact Hk]. Qed.

Lemma keeps_ret {A} (a : A) : keeps (ret a).
Proof. by apply hoare_ret. Qed.

Lemma keeps_lift {A B} (r : result A) (k : A -> M B) (Q : B -> world -> Prop) :
  (forall a, hoare Inv (k a) Q Inv) -> hoare Inv (bind (lift r) k) Q Inv.
Proof. intros Hk. apply keeps_step; [by apply hoare_lift | done]. Qed.

Lemma keeps_of_fresh m : gives_fresh m -> keeps m.
Proof. intros Hm. eapply hoare_weaken; [exact Hm | done | by intros ? ? [? _] | done]. Qed.

Lemma keeps_of_clone m : gives_clone m -> keeps m.
Proof. intros Hm. eapply hoare_weaken; [exact Hm | done | by intros ? ? [? _] | done]. Qed.

Lemma keeps_get_image : keeps (get_image c).
Proof. intros w Hw. simpl. done. Qed.

Lemma keeps_map_in_place f l : (length T0 <= l)%nat -> keeps (map_in_place f l).
Proof.
  intros Hl. unfold map_in_place.
  apply keeps_step; [apply hoare_read_tensor|].
  intros t. by apply hoare_write_tensor.
Qed.

Lemma fresh_logit_ l : (length T0 <= l)%nat -> gives_fresh (logit_ l).
Proof.
  intros Hl. unfold logit_.
  repeat (apply keeps_step; [by apply keeps_map_in_place|]; intros ?).
  by apply hoare_ret.
Qed.

Lemma keeps_Image_shape : keeps (Image_shape c).
Proof.
  unfold Image_shape.
  apply keeps_step; [apply keeps_get_image|].
  intros i. apply keeps_step; [apply hoare_read_tensor|].
  intros t. apply keeps_ret.
Qed.

Lemma keeps_set_flow f : keeps (modify_image c (set_flow f)).
Proof. apply hoare_modify_image. intros i. apply fresh_set_flow. Qed.

Lemma keeps_set_affine_mat m : keeps (modify_image c (set_affine_mat m)).
Proof. apply hoare_modify_image. intros i. apply fresh_set_affine_mat. Qed.

Lemma keeps_set_sample_kwargs kw : keeps (modify_image c (set_sample_kwargs kw)).
Proof. apply hoare_modify_image. intros i. apply fresh_set_sample_kwargs. Qed.

Lemma keeps_set_px l : (length T0 <= l)%nat -> keeps (modify_image c (set_px l)).
Proof. intros Hl. apply hoare_modify_image. intros i. by apply fresh_set_px. Qed.

Lemma keeps_set_logit_px l :
  (forall l', l = Some l' -> (length T0 <= l')%nat) ->
  keeps (modify_image c (set_logit_px l)).
Proof. intros Hl. apply hoare_modify_image. intros i. by apply fresh_set_logit_px. Qed.

Lemma keeps_Image_flow : keeps (Image_flow c).
Proof.
  unfold Image_flow.
  apply keeps_step; [apply keeps_get_image|]. intros i.
  apply keeps_step.
  { destruct (_flow i); [apply keeps_ret|].
    apply keeps_step; [apply keeps_Image_shape|]. intros sz. apply keeps_set_flow. }
  intros ?. apply keeps_step; [apply keeps_get_image|]. intros i'.
  apply keeps_step.
  { destruct (_affine_mat i'); [|apply keeps_ret].
    apply keeps_step; [apply keeps_set_flow|]. intros ?. apply keeps_set_affine_mat. }
  intros ?. apply keeps_step; [apply keeps_get_image|]. intros i''.
  apply keeps_ret.
Qed.

Lemma keeps_Image_refresh : keeps (Image_refresh c).
Proof.
  unfold Image_refresh.
  eapply hoare_step; [apply hoare_get_clone|]. intros i [Hpx Hlg].
  apply keeps_step.
  { destruct (_logit_px i) as [l|]; [|apply keeps_ret].
    assert (Hl : (length T0 <= l)%nat) by by apply Hlg.
    apply keeps_step; [by apply keeps_map_in_place|]. intros ?.
    apply keeps_step; [by apply keeps_set_px|]. intros ?.
    apply keeps_set_logit_px. done. }
  intros ?. apply keeps_step; [apply keeps_get_image|]. intros i'.
  destruct (_ || _); [|apply keeps_ret].
  apply keeps_step; [apply hoare_read_tensor|]. intros t.
  apply keeps_step; [apply keeps_Image_flow|]. intros f.
  apply keeps_step; [apply keeps_get_image|]. intros i''.
  apply keeps_lift. intros r.
  eapply hoare_step; [apply hoare_alloc_tensor|]. intros l Hl.
  apply keeps_step; [by apply keeps_set_px|]. intros ?.
  apply keeps_step; [apply keeps_set_sample_kwargs|]. intros ?.
  apply keeps_set_flow.
Qed.

Lemma fresh_Image_px : gives_fresh (Image_px c).
Proof.
  unfold Image_px.
  apply keeps_step; [apply keeps_Image_refresh|]. intros ?.
  eapply hoare_step; [apply hoare_get_clone|]. intros i [Hpx Hlg].
  by apply hoare_ret.
Qed.

Lemma fresh_Image_logit_px : gives_fresh (Image_logit_px c).
Proof.
  unfold Image_logit_px.
  eapply hoare_bind; [apply (hoare_get_image Inv Inv)|]. intros i.
  eapply hoare_bind
    with (Q := fun _ w => Inv w /\ is_Some (_logit_px (image_at w c))).
  { destruct (_logit_px i) as [l|] eqn:El.
    - apply hoare_ret. intros w [Hw ->]. by rewrite El.
    - eapply hoare_weaken with (P' := Inv) (E' := Inv);
        [| by intros ? [? _] | intros a s Hs; exact Hs | done].
      eapply hoare_step; [apply fresh_Image_px|]. intros l Hl.
      eapply hoare_step; [by apply fresh_logit_|]. intros l' Hl'.
      intros w Hw. simpl. split.
      + apply inv_upd_image; [|done]. apply fresh_set_logit_px.
        intros ? [= <-]. done.
      + rewrite image_at_upd_image by (destruct Hw as (_ & _ & ? & _); lia).
        simpl. by eexists. }
  intros ?. eapply hoare_bind.
  { apply (hoare_get_image (fun w => Inv w /\ is_Some (_logit_px (image_at w c))) Inv). }
  intros i'. apply hoare_ret. intros w [[Hw [l Hl]] ->]. split; [done|].
  rewrite Hl. simpl. by apply (inv_fresh w Hw).
Qed.

Lemma fresh_call_tensor_func f args kw l :
  (length T0 <= l)%nat -> gives_fresh (call_tensor_func f args kw l).
Proof.
  intros Hl. unfold call_tensor_func.
  apply keeps_step; [apply hoare_read_tensor|]. intros t.
  apply keeps_lift. intros t'.
  destruct (in_place f).
  - apply keeps_step; [by apply hoare_write_tensor|]. intros ?. by apply hoare_ret.
  - apply hoare_alloc_tensor.
Qed.

Lemma clone_Image_lighting f args kw : gives_clone (Image_lighting c f args kw).
Proof.
  unfold Image_lighting.
  eapply hoare_step; [apply fresh_Image_logit_px|]. intros l Hl.
  eapply hoare_step; [by apply fresh_call_tensor_func|]. intros l' Hl'.
  apply keeps_step; [apply keeps_set_logit_px; by intros ? [= <-]|]. intros ?.
  by apply hoare_ret.
Qed.

Lemma clone_Image_pixel f args kw : gives_clone (Image_pixel c f args kw).
Proof.
  unfold Image_pixel.
  eapply hoare_step; [apply fresh_Image_px|]. intros l Hl.
  eapply hoare_step; [by apply fresh_call_tensor_func|]. intros l' Hl'.
  apply keeps_step; [by apply keeps_set_px|]. intros ?.
  by apply hoare_ret.
Qed.

Lemma clone_Image_coord f args kw : gives_clone (Image_coord c f args kw).
Proof.
  unfold Image_coord.
  apply keeps_step; [apply keeps_Image_flow|]. intros fl.
  apply keeps_step; [apply keeps_Image_shape|]. intros sz.
  apply keeps_lift. intros f'.
  apply keeps_step; [apply keeps_set_flow|]. intros ?.
  by apply hoare_ret.
Qed.

Lemma clone_Image_affine f args kw : gives_clone (Image_affine c f args kw).
Proof.
  unfold Image_affine, Image_affine_mat.
  apply keeps_lift. intros m.
  apply keeps_step.
  { apply keeps_step; [apply keeps_get_image|]. intros i.
    apply keeps_step; [destruct (_affine_mat i);
      [apply keeps_ret | apply keeps_set_affine_mat]|]. intros ?.
    apply keeps_step; [apply keeps_get_image|]. intros i'. apply keeps_ret. }
  intros a. apply keeps_step; [apply keeps_set_affine_mat|]. intros ?.
  by apply hoare_ret.
Qed.

Lemma clone_Image_set_sample kw : gives_clone (Image_set_sample c kw).
Proof.
  unfold Image_set_sample.
  apply keeps_step; [apply keeps_set_sample_kwargs|]. intros ?.
  by apply hoare_ret.
Qed.

Lemma clone_Image_resize sz : gives_clone (Image_resize c sz).
Proof.
  unfold Image_resize.
  apply keeps_step; [apply keeps_get_image|]. intros i.
  destruct (_flow i); [by apply hoare_raise|].
  apply keeps_step.
  { destruct sz; [|apply keeps_ret].
    apply keeps_step; [apply keeps_Image_shape|]. intros s. apply keeps_ret. }
  intros s. apply keeps_step; [apply keeps_set_flow|]. intros ?.
  by apply hoare_ret.
Qed.

Lemma clone_RandTransform_call r args kw : gives_clone (RandTransform_call r c args kw).
Proof.
  unfold RandTransform_call, Transform_call, Transform_calc.
  destruct (do_run r); [|by apply hoare_ret].
  destruct (func (tfm r)).
  - apply clone_Image_lighting.
  - apply clone_Image_affine.
  - apply clone_Image_pixel.
  - apply clone_Image_coord.
Qed.

Lemma clone_apply_each xtra tfms : gives_clone (apply_each xtra tfms c).
Proof.
  induction tfms as [|t rest IH]; simpl; [by apply hoare_ret|].
  eapply hoare_step with (phi := fun y => y = c).
  - destruct (list_find _ xtra) as [[? [? kw]]|]; apply clone_RandTransform_call.
  - intros y ->. apply IH.
Qed.
End Frame.

Lemma Image_refresh_clean `{Backend} (x : nat) (w : world) :
  _logit_px (image_at w x) = None -> _flow (image_at w x) = None ->
  _affine_mat (image_at w x) = None ->
  Image_refresh x w = (Ok tt, w).
Proof.
  intros Hl Hf Ha. unfold Image_refresh, bind, get_image. rewrite Hl. simpl.
  by rewrite Ha, Hf.
Qed.

Lemma resolve_one_store `{Backend} (f : RandTransform) (w : world) :
  tensors (snd (resolve_one f w)) = tensors w
  /\ images (snd (resolve_one f w)) = images w.
Proof.
  unfold resolve_one.
  destruct (RandTransform_resolve (f, rng_state w)) as [[[]|e] [f' g]]. all: done.
Qed.

Lemma resolve_tfms_store `{Backend} (l : list RandTransform) (w : world) :
  tensors (snd (resolve_tfms l w)) = tensors w
  /\ images (snd (resolve_tfms l w)) = images w.
Proof.
  revert w. induction l as [|f l IH]; intros w; simpl; [done|].
  unfold bind. pose proof (resolve_one_store f w) as [Ht Hi].
  destruct (resolve_one f w) as [[f'|e] w1]; simpl in *; [|done].
  specialize (IH w1) as [Ht' Hi'].
  destruct (resolve_tfms l w1) as [[l'|e] w2]; simpl in *; split; congruence.
Qed.

Lemma set_rng_same (w w1 : world) :
  tensors w1 = tensors w -> images w1 = images w -> w1 = set_rng (rng_state w1) w.
Proof. destruct w, w1. unfold set_rng. simpl. by intros -> ->. Qed.

Lemma rng_indep_ret {A} (a : A) : rng_indep (ret a).
Proof. done. Qed.

Lemma rng_indep_lift {A} (r : result A) : rng_indep (lift r).
Proof. by destruct r. Qed.

Lemma rng_indep_bind {A B} (m : M A) (k : A -> M B) :
  rng_indep m -> (forall a, rng_indep (k a)) -> rng_indep (bind m k).
Proof.
  intros Hm Hk g w. unfold bind. rewrite Hm.
  destruct (m w) as [[a|e] w1]; simpl; [apply Hk | done].
Qed.

Lemma rng_indep_get_image x : rng_indep (get_image x).
Proof. done. Qed.
Lemma rng_indep_read_tensor l : rng_indep (read_tensor l).
Proof. done. Qed.
Lemma rng_indep_write_tensor l t : rng_indep (write_tensor l t).
Proof. done. Qed.
Lemma rng_indep_alloc_tensor t : rng_indep (alloc_tensor t).
Proof. done. Qed.
Lemma rng_indep_modify_image x f : rng_indep (modify_image x f).
Proof. done. Qed.

Lemma rng_indep_Image_flow x : rng_indep (Image_flow x).
Proof.
  unfold Image_flow, Image_shape.
  repeat first
    [ apply rng_indep_bind; [|intros ?]
    | apply rng_indep_get_image | apply rng_indep_read_tensor
    | apply rng_indep_modify_image | apply rng_indep_ret
    | match goal with |- rng_indep (match ?o with _ => _ end) => destruct o end ].
Qed.

Lemma rng_indep_Image_refresh `{Backend} x : rng_indep (Image_refresh x).
Proof.
  unfold Image_refresh, map_in_place.
  repeat first
    [ apply rng_indep_bind; [|intros ?]
    | apply rng_indep_get_image | apply rng_indep_read_tensor
    | apply rng_indep_write_tensor | apply rng_indep_alloc_tensor
    | apply rng_indep_modify_image | apply rng_indep_ret
    | apply rng_indep_lift | apply rng_indep_Image_flow
    | match goal with |- rng_indep (match ?o with _ => _ end) => destruct o end
    | match goal with |- rng_indep (if ?b then _ else _) => destruct b end ].
Qed.

(** [clone] materialises the image it copies, and what it makes is new. *)
Lemma Image_clone_inv `{Backend} (x : nat) (w : world) :
  let w0 := snd (Image_refresh x w) in
  match Image_clone x w with
  | (Ok c, w2) => clone_inv (tensors w0) (images w0) c w2
  | (Err _, w2) => w2 = w0
  end.
Proof.
  cbv zeta. unfold Image_clone, Image_data, Image_px.
  unfold bind at 1. unfold bind at 1. unfold bind at 1.
  destruct (Image_refresh x w) as [[[]|e] w0]; simpl; [|done].
  unfold clone_inv. simpl. repeat split.
  - by apply prefix_app_r.
  - by apply prefix_app_r.
  - done.
  - rewrite length_app. simpl. lia.
  - unfold image_at. simpl. rewrite lookup_app_r by done.
    rewrite Nat.sub_diag. simpl. done.
  - unfold image_at. simpl. rewrite lookup_app_r by done.
    rewrite Nat.sub_diag. simpl. done.
Qed.

(** C3, as the source has it.  Of the tensors and images that exist before
    the call, [apply_tfms] changes what a read of the image's [data] would
    change, and nothing else: either the call ends before the clone and the
    store is as it was, or the image has been materialised as by [refresh]
    and every tensor and image of that store is still in place, new ones
    being added after them.  This holds whatever the transforms are and
    whether the call returns or raises.  So an image without pending logit
    buffer, flow field or affine matrix, and its raw pixel array, are
    unchanged. *)
Theorem clone_isolation `{Backend} (tfms : listy RandTransform) (x : nat)
    (do_resolve : bool) (xtra : option (list (nat * dict value)))
    (size : option size_arg) (kw : dict value) (w : world) :
  let w0 := snd (Image_refresh x w) in
  let w' := snd (apply_tfms tfms x do_resolve xtra size kw w) in
  ((tensors w' = tensors w /\ images w' = images w)
   \/ (tensors w0 `prefix_of` tensors w' /\ images w0 `prefix_of` images w'))
  /\ (_logit_px (image_at w x) = None -> _flow (image_at w x) = None ->
      _affine_mat (image_at w x) = None ->
      tensors w `prefix_of` tensors w'
      /\ images w `prefix_of` images w'
      /\ ((x < length (images w))%nat ->
          (_px (image_at w x) < length (tensors w))%nat ->
          image_at w' x = image_at w x
          /\ tensor_at w' (_px (image_at w' x)) = tensor_at w (_px (image_at w x)))).
Proof.
  intros w0 w'.
  assert (Hgen : (tensors w' = tensors w /\ images w' = images w)
     \/ (tensors w0 `prefix_of` tensors w' /\ images w0 `prefix_of` images w')).
  { subst w'. destruct (apply_tfms tfms x do_resolve xtra size kw w) as [res w'] eqn:E.
    simpl. unfold apply_tfms in E.
    destruct (negb _); [left; by injection E as _ <-|].
    rewrite listify_no_count in E. unfold lift in E. unfold bind at 1 in E.
    unfold ret at 1 in E.
    set (l := pipeline_order (listy_items tfms)) in E.
    unfold bind at 1 in E.
    match type of E with
    | (let (_, _) := ?m w in _) = _ => destruct (m w) as [r w1] eqn:Hr
    end.
    assert (Hres : tensors w1 = tensors w /\ images w1 = images w).
    { destruct do_resolve.
      - pose proof (resolve_tfms_store l w) as Hs. by rewrite Hr in Hs.
      - by injection Hr as _ <-. }
    destruct Hres as [Ht Hi].
    destruct r as [l'|e]; [|left; by injection E as _ <-].
    right.
    (* the refresh of the clone's source, in the store after the draws *)
    assert (Hw0 : tensors (snd (Image_refresh x w1)) = tensors w0
                  /\ images (snd (Image_refresh x w1)) = images w0).
    { rewrite (set_rng_same w w1 Ht Hi), rng_indep_Image_refresh. done. }
    destruct Hw0 as [Ht0 Hi0].
    pose proof (Image_clone_inv x w1) as Hclone. cbv zeta in Hclone.
    unfold bind at 1 in E.
    destruct (Image_clone x w1) as [[c|e] w2];
      [|injection E as _ <-; subst w2; by rewrite Ht0, Hi0].
    rewrite Ht0, Hi0 in Hclone.
    assert (Hrest : hoare (clone_inv (tensors w0) (images w0) c)
      ((if kw is [] then ret c else Image_set_sample c kw) ;;
       (match size with
        | Some sz => if size_truthy size then Image_resize c sz else ret c
        | None => ret c
        end) ;;
       apply_each (default [] xtra) l' c)
      (fun _ => clone_inv (tensors w0) (images w0) c)
      (clone_inv (tensors w0) (images w0) c)).
    { apply keeps_step.
      { destruct kw; [apply keeps_ret|].
        apply keeps_of_clone, clone_Image_set_sample. }
      intros ?. apply keeps_step.
      { destruct size as [sz|]; [|apply keeps_ret].
        destruct (size_truthy _); [|apply keeps_ret].
        apply keeps_of_clone, clone_Image_resize. }
      intros ?. apply keeps_of_clone, clone_apply_each. }
    specialize (Hrest w2 Hclone). rewrite E in Hrest.
    destruct res; destruct Hrest as (HT & HI & _); done. }
  split; [exact Hgen|].
  intros Hl Hf Ha.
  assert (Hw0 : w0 = w) by (subst w0; by rewrite Image_refresh_clean).
  assert (Hpre : tensors w `prefix_of` tensors w' /\ images w `prefix_of` images w').
  { destruct Hgen as [[-> ->]|[HT HI]]; [done|]. by rewrite Hw0 in HT, HI. }
  destruct Hpre as [HT HI]. split; [done|]. split; [done|].
  intros Hx Hp.
  assert (Himg : image_at w' x = image_at w x).
  { unfold image_at. destruct HI as [k ->]. by rewrite lookup_app_l. }
  split; [done|]. rewrite Himg. unfold tensor_at.
  destruct HT as [k ->]. by rewrite lookup_app_l.
Qed.

(** ** Nearest-neighbour sampling *)

Lemma result_all_map_ok {A B} (f : A -> result B) (g : A -> B) (l : list A) :
  Forall (fun a => f a = Ok (g a)) l -> result_all (map f l) = Ok (map g l).
Proof.
  induction 1 as [|a l Ha _ IH]; simpl; [done|]. by rewrite Ha, IH.
Qed.

Lemma clamp_range n v : 0 < n -> 0 <= clamp 0 (n - 1) v < n.
Proof. unfold clamp. lia. Qed.

Lemma py_index_nth {A} (l : list A) (i : Z) (d : A) :
  0 <= i < Z.of_nat (length l) -> py_index l i = Some (nth (Z.to_nat i) l d).
Proof.
  intros Hi. unfold py_index.
  destruct (Z.leb_spec 0 i); [|lia].
  rewrite nth_lookup.
  destruct (l !! Z.to_nat i) eqn:E; [done|].
  apply lookup_ge_None in E. lia.
Qed.

Lemma gather_pixel_clamped (chan : list (list Qc)) (h w : nat) (x y : Z) :
  (0 < h)%nat -> (0 < w)%nat ->
  length chan = h -> Forall (fun row => length row = w) chan ->
  gather_pixel chan
    (clamp 0 (Z.of_nat w - 1) x, clamp 0 (Z.of_nat h - 1) y)
  = Ok (nth (Z.to_nat (clamp 0 (Z.of_nat w - 1) x))
          (nth (Z.to_nat (clamp 0 (Z.of_nat h - 1) y)) chan []) 0%Qc).
Proof.
  intros Hh Hw Hlen Hrows. unfold gather_pixel. simpl.
  pose proof (clamp_range (Z.of_nat h) y ltac:(lia)) as Hy.
  pose proof (clamp_range (Z.of_nat w) x ltac:(lia)) as Hx.
  rewrite (py_index_nth chan _ []) by lia.
  set (row := nth _ chan []).
  assert (Hrow : length row = w).
  { rewrite Forall_forall in Hrows. apply Hrows. subst row.
    apply nth_In. lia. }
  by rewrite (py_index_nth row _ 0%Qc) by lia.
Qed.

(** In nearest mode with an edge mode other than ['zeros'], on an image
    with at least one row and one column, no look-up is out of range. *)
Lemma nearest_gathers (x : tensor) (coords : flow) (mode : string) :
  mode <> "zeros"%string ->
  rectangular x ->
  (0 < snd (fst (tshape x)))%nat -> (0 < snd (tshape x))%nat ->
  grid_sample_nearest x coords (VStr mode) = Ok (nearest_clamped x coords).
Proof.
  intros Hmode Hrect Hh Hw.
  unfold grid_sample_nearest, nearest_clamped, rectangular in *.
  destruct (tshape x) as [[ch h] w] eqn:Es. simpl in Hh, Hw.
  assert (Hz : is_str (VStr mode) "zeros" = false).
  { unfold is_str. destruct (String.eqb_spec "zeros" mode) as [E|E]; [|done].
    exfalso. by apply Hmode. }
  rewrite Hz. rewrite !map_map.
  erewrite result_all_map_ok; [reflexivity|].
  eapply Forall_impl; [|exact Hrect]. intros chan [Hlen Hrows]. simpl.
  unfold gather_channel. rewrite !map_map.
  apply result_all_map_ok. apply Forall_forall. intros row _.
  rewrite !map_map. simpl.
  apply result_all_map_ok. apply Forall_forall. intros [cx cy] _.
  unfold nearest_index.
  by apply gather_pixel_clamped.
Qed.

Lemma nearest_index_lt (n : nat) (v : Qc) : (0 < n)%nat -> (nearest_index n v < n)%nat.
Proof.
  intros Hn. unfold nearest_index.
  pose proof (clamp_range (Z.of_nat n)
    (to_int64 (round_half_even ((v + 1) * (Qc_of_nat n / 2))%Qc)) ltac:(lia)).
  lia.
Qed.

(** what is looked up is a pixel of the channel *)
Lemma nearest_clamped_pixels (x : tensor) (coords : flow) :
  rectangular x ->
  (0 < snd (fst (tshape x)))%nat -> (0 < snd (tshape x))%nat ->
  Forall2 (fun chan out =>
      Forall2 (fun crow orow =>
          length orow = length crow
          /\ Forall (fun v => exists row, row ∈ chan /\ v ∈ row) orow)
        coords out)
    x (nearest_clamped x coords).
Proof.
  intros Hrect Hh Hw. unfold nearest_clamped, rectangular in *.
  destruct (tshape x) as [[ch h] w] eqn:Es. simpl in Hh, Hw.
  apply Forall2_fmap_r, Forall_Forall2_diag.
  eapply Forall_impl; [|exact Hrect]. intros chan [Hlen Hrows]. simpl.
  apply Forall2_fmap_r, Forall_Forall2_diag, Forall_forall. intros crow _.
  split; [by rewrite length_map|].
  apply Forall_forall. intros v Hv. apply in_map_iff in Hv as ([cx cy] & <- & _).
  set (row := nth (nearest_index h cy) chan []).
  assert (Hrow : In row chan).
  { apply nth_In. rewrite Hlen. by apply nearest_index_lt. }
  exists row. split; [by apply list_elem_of_In|].
  apply list_elem_of_In, nth_In.
  rewrite Forall_forall in Hrows. rewrite (Hrows row Hrow).
  by apply nearest_index_lt.
Qed.

(** C2, as the source has it.  Nearest mode with edge mode ['reflect'] is
    not refused.  On an image with at least one row and one column the call
    returns, and it returns what edge mode ['border'] returns: the pixel
    indices are clamped into the image, so the result has, for every
    channel of the input, the height and width of the flow field, and every
    pixel of it is a pixel of that channel; nothing is reflected and
    nothing is filled with zeros. *)
Theorem nearest_reflect_clamps `{Backend} (x : tensor) (coords : flow) :
  rectangular x ->
  (0 < snd (fst (tshape x)))%nat -> (0 < snd (tshape x))%nat ->
  exists r,
    grid_sample x coords (VStr "nearest") (VStr "reflect") = Ok r
    /\ grid_sample x coords (VStr "nearest") (VStr "border") = Ok r
    /\ Forall2 (fun chan out =>
           Forall2 (fun crow orow =>
               length orow = length crow
               /\ Forall (fun v => exists row, row ∈ chan /\ v ∈ row) orow)
             coords out)
         x r.
Proof.
  intros Hrect Hh Hw. exists (nearest_clamped x coords).
  unfold grid_sample. simpl. split; [|split].
  - by apply nearest_gathers.
  - by apply nearest_gathers.
  - by apply nearest_clamped_pixels.
Qed.

Lemma nearest_reflect_clamps_witness :
  exists r,
    grid_sample (H := stub_backend) two_pixels (affine_grid (1, 1, 2)%nat)
      (VStr "nearest") (VStr "reflect") = Ok r
    /\ grid_sample (H := stub_backend) two_pixels (affine_grid (1, 1, 2)%nat)
         (VStr "nearest") (VStr "border") = Ok r.
Proof.
  destruct (nearest_reflect_clamps (H := stub_backend) two_pixels
              (affine_grid (1, 1, 2)%nat)) as (r & Hr & Hb & _).
  - unfold rectangular. simpl. repeat constructor.
  - simpl. lia.
  - simpl. lia.
  - exists r. split; [exact Hr | exact Hb].
Defined.

(** C2 as stated fails: the call returns. *)
Lemma nearest_reflect_returns :
  grid_sample (H := stub_backend) two_pixels (affine_grid (1, 1, 2)%nat)
    (VStr "nearest") (VStr "reflect") = Ok two_pixels
  /\ ~ exists e,
       grid_sample (H := stub_backend) two_pixels (affine_grid (1, 1, 2)%nat)
         (VStr "nearest") (VStr "reflect") = Err e.
Proof.
  assert (E : grid_sample (H := stub_backend) two_pixels
                (affine_grid (1, 1, 2)%nat) (VStr "nearest") (VStr "reflect")
              = Ok two_pixels) by (vm_compute; reflexivity).
  split; [exact E|]. intros [e He]. rewrite E in He. discriminate.
Qed.

(** ** The identity grid *)

Lemma linspace_lookup n k :
  (k < n)%nat ->
  linspace n !! k = Some (-1 + Qc_of_nat k * (2 / (Qc_of_nat n - 1)))%Qc.
Proof.
  intros Hk. unfold linspace. rewrite list_lookup_fmap.
  rewrite lookup_seq_lt by done. done.
Qed.

Lemma linear_points_lookup n k :
  (k < n)%nat -> take n (linear_points n) !! k = Some (grid_point n k).
Proof.
  intros Hk. rewrite lookup_take_lt by done. unfold linear_points, grid_point.
  destruct (Nat.ltb_spec 1 n).
  - by apply linspace_lookup.
  - assert (k = 0%nat) as -> by lia. done.
Qed.

(** The first half of C9: [affine_grid] gives, at row [i] and column [j],
    the [j]-th of [W] points spaced evenly from -1 to 1 as [x] and the
    [i]-th of [H] such points as [y]; an axis of length one has the single
    point -1. *)
Lemma affine_grid_lookup (C H W i j : nat) :
  (i < H)%nat -> (j < W)%nat ->
  affine_grid (C, H, W) !! i ≫= (.!! j)
  = Some (grid_point W j, grid_point H i).
Proof.
  intros Hi Hj. unfold affine_grid. rewrite list_lookup_fmap.
  rewrite linear_points_lookup by done. simpl.
  rewrite list_lookup_fmap, linear_points_lookup by done. done.
Qed.

Lemma grid_point_ends n :
  (1 < n)%nat -> grid_point n 0 = (-1)%Qc /\ grid_point n (n - 1) = 1%Qc.
Proof.
  intros Hn. unfold grid_point. destruct (Nat.ltb_spec 1 n); [|lia]. split.
  - assert (E0 : Qc_of_nat 0 = 0%Qc) by (apply Qc_is_canon; reflexivity).
    rewrite E0. ring.
  - assert (E : Qc_of_nat (n - 1) = (Qc_of_nat n - 1)%Qc).
    { unfold Qc_of_nat, Qc_of_Z. apply Qc_is_canon. simpl.
      rewrite !Qred_correct. unfold Qminus, Qplus, Qeq. simpl. lia. }
    rewrite E.
    assert (Hne : (Qc_of_nat n - 1)%Qc <> 0%Qc).
    { rewrite <- E. unfold Qc_of_nat, Qc_of_Z. intros Hz.
      apply (f_equal this) in Hz. simpl in Hz.
      pose proof (Qred_correct (inject_Z (Z.of_nat (n - 1)))) as Hq.
      rewrite Hz in Hq. unfold Qeq in Hq. simpl in Hq. lia. }
    field. exact Hne.
Qed.

(** C9 fails on the code.  Through the identity grid of its own shape, a
    row of three pixels 1 2 3 comes back as 1 3 3 in nearest mode with the
    edge modes ['reflect'] and ['border'], and as 1 3 0 with ['zeros']:
    the grid's coordinate 1 is scaled to the index 3, one past the last
    pixel. *)
Theorem identity_grid_nearest_not_identity :
  let grid := affine_grid (tshape three_pixels) in
  grid_sample (H := stub_backend) three_pixels grid (VStr "nearest") (VStr "reflect")
    = Ok [[[Qc_of_Z 1; Qc_of_Z 3; Qc_of_Z 3]]]
  /\ grid_sample (H := stub_backend) three_pixels grid (VStr "nearest") (VStr "border")
    = Ok [[[Qc_of_Z 1; Qc_of_Z 3; Qc_of_Z 3]]]
  /\ grid_sample (H := stub_backend) three_pixels grid (VStr "nearest") (VStr "zeros")
    = Ok [[[Qc_of_Z 1; Qc_of_Z 3; Qc_of_Z 0]]]
  /\ grid_sample (H := stub_backend) three_pixels grid (VStr "nearest") (VStr "reflect")
    <> Ok three_pixels.
Proof.
  cbv zeta.
  assert (E : grid_sample (H := stub_backend) three_pixels
                (affine_grid (tshape three_pixels)) (VStr "nearest") (VStr "reflect")
              = Ok [[[Qc_of_Z 1; Qc_of_Z 3; Qc_of_Z 3]]]) by (vm_compute; reflexivity).
  split; [exact E|]. split; [vm_compute; reflexivity|].
  split; [vm_compute; reflexivity|].
  rewrite E. intros Hne. injection Hne as Hne. discriminate.
Qed.

(** ** Closed instances *)

(** C3 as stated fails.  The image of [pending_world] has a flip pending;
    [apply_tfms] with one transform clones it, the clone reads its [data],
    and that materialises the flip in the image itself: its raw pixels were
    1 2 and are 2 1 afterwards. *)
Lemma clone_materialises_original :
  let w' := snd (apply_tfms (H := stub_backend) (PSeq [copy_instance]) 0%nat
                   true None None [] pending_world) in
  tensor_at pending_world (_px (image_at pending_world 0)) = two_pixels
  /\ tensor_at w' (_px (image_at w' 0)) = [[[Qc_of_Z 2; Qc_of_Z 1]]]
  /\ tensor_at w' (_px (image_at w' 0))
     <> tensor_at pending_world (_px (image_at pending_world 0)).
Proof.
  cbv zeta.
  set (w' := snd (apply_tfms (H := stub_backend) (PSeq [copy_instance]) 0%nat
                    true None None [] pending_world)).
  assert (E1 : tensor_at pending_world (_px (image_at pending_world 0)) = two_pixels)
    by reflexivity.
  assert (E2 : tensor_at w' (_px (image_at w' 0)) = [[[Qc_of_Z 2; Qc_of_Z 1]]])
    by (vm_compute; reflexivity).
  split; [exact E1|]. split; [exact E2|].
  rewrite E1, E2. intros Hne. injection Hne as Hne. discriminate.
Qed.

Lemma clone_isolation_witness :
  let w' := snd (apply_tfms (H := stub_backend) (PSeq [copy_instance]) 0%nat
                   true None None [] clean_world) in
  tensors clean_world `prefix_of` tensors w'
  /\ images clean_world `prefix_of` images w'
  /\ image_at w' 0 = image_at clean_world 0
  /\ tensor_at w' (_px (image_at w' 0)) = two_pixels.
Proof.
  destruct (proj2 (clone_isolation (H := stub_backend) (PSeq [copy_instance])
              0%nat true None None [] clean_world) eq_refl eq_refl eq_refl)
    as (HT & HI & Hx).
  destruct (Hx ltac:(simpl; lia) ltac:(simpl; lia)) as [Hi Ht].
  split; [exact HT|]. split; [exact HI|]. split; [exact Hi | exact Ht].
Defined.

Lemma stub_random_range n :
  (0 <= py_random (Backend := stub_backend) n)%Qc
  /\ (py_random (Backend := stub_backend) n < 1)%Qc.
Proof. split; vm_compute; congruence. Qed.

Lemma resolve_probability_boundary_witness :
  do_run (fst (snd (RandTransform_resolve (H := stub_backend)
                      (never_turn (H := stub_backend), Rng 0 0)))) = false
  /\ do_run (fst (snd (RandTransform_resolve (H := stub_backend)
                         (always_turn (H := stub_backend), Rng 0 0)))) = true.
Proof.
  assert (Hn : is_err (fst (RandTransform_resolve (H := stub_backend)
                              (never_turn (H := stub_backend), Rng 0 0))) = false)
    by (vm_compute; reflexivity).
  assert (Ha : is_err (fst (RandTransform_resolve (H := stub_backend)
                              (always_turn (H := stub_backend), Rng 0 0))) = false)
    by (vm_compute; reflexivity).
  split.
  - pose proof (resolve_probability_boundary (H := stub_backend)
                  (never_turn (H := stub_backend)) (Rng 0 0)
                  stub_random_range eq_refl) as Hm.
    destruct (RandTransform_resolve (H := stub_backend)
                (never_turn (H := stub_backend), Rng 0 0))
      as [[[]|e] [r' g']].
    + simpl. apply Hm. reflexivity.
    + simpl in Hn. discriminate.
  - pose proof (resolve_probability_boundary (H := stub_backend)
                  (always_turn (H := stub_backend)) (Rng 0 0)
                  stub_random_range eq_refl) as Hm.
    destruct (RandTransform_resolve (H := stub_backend)
                (always_turn (H := stub_backend), Rng 0 0))
      as [[[]|e] [r' g']].
    + simpl. apply Hm. reflexivity.
    + simpl in Ha. discriminate.
Defined.

Lemma refresh_reconciles_witness :
  let w' := snd (Image_refresh (H := stub_backend) 0 pending_world) in
  _logit_px (image_at w' 0) = None /\ _flow (image_at w' 0) = None
  /\ _affine_mat (image_at w' 0) = None.
Proof.
  cbv zeta.
  pose proof (refresh_reconciles (H := stub_backend) 0 pending_world
                ltac:(simpl; lia)) as Hm.
  cbv zeta in Hm.
  destruct (Image_refresh (H := stub_backend) 0 pending_world) as [[[]|e] w'] eqn:E.
  - simpl. destruct Hm as (H1 & H2 & H3 & _). repeat split; assumption.
  - vm_compute in E. discriminate.
Defined.

Lemma affine_composition_witness :
  (Image_affine 0 (fun _ _ => Ok flip_mat) [] [] ;;
   Image_affine 0 (fun _ _ => Ok turn_mat) [] [] ;;
   Image_px (H := stub_backend) 0) pending_world
  = (Image_affine 0 (fun _ _ => Ok (matmul flip_mat turn_mat)) [] [] ;;
     Image_px (H := stub_backend) 0) pending_world.
Proof.
  apply (affine_composition (H := stub_backend) 0
           (fun _ _ => Ok flip_mat) (fun _ _ => Ok turn_mat)
           (fun _ _ => Ok (matmul flip_mat turn_mat))
           [] [] [] [] [] [] flip_mat turn_mat pending_world).
  - simpl. lia.
  - reflexivity.
  - reflexivity.
  - reflexivity.
Defined.

Lemma unresolved_call_runs_witness :
  RandTransform_call (H := stub_backend) (Transform_call_kw copy_pixels 0 true [])
    0 [] [("p"%string, VInt 0)] clean_world
  = Transform_call (H := stub_backend) copy_pixels 0 [] [("p"%string, VInt 0)]
      clean_world.
Proof.
  apply (unresolved_call_runs (H := stub_backend) copy_pixels 0 true [] 0 []
           [("p"%string, VInt 0)] clean_world).
  simpl. apply NoDup_singleton.
Defined.

(** * Further properties *)

(** ** The resampler *)

Lemma length_linear_points n : (0 < n)%nat -> length (linear_points n) = n.
Proof.
  intros Hn. unfold linear_points, linspace.
  destruct (Nat.ltb_spec 1 n); simpl; [|lia].
  by rewrite length_map, length_seq.
Qed.

Lemma length_take_linear_points n : length (take n (linear_points n)) = n.
Proof.
  destruct n as [|n]; [done|].
  rewrite length_take, length_linear_points by lia. lia.
Qed.

(** X1. [affine_grid] of a target [(C, H, W)] has [H] rows of [W] points.
    The point at row [i] and column [j] has as [x] the [j]-th of [W] values
    spaced evenly from -1 to 1 and as [y] the [i]-th of [H] such values; an
    axis of length one has the single value -1. *)
Theorem identity_grid_points (C H W : nat) :
  length (affine_grid (C, H, W)) = H
  /\ Forall (fun row => length row = W) (affine_grid (C, H, W))
  /\ (forall i j, (i < H)%nat -> (j < W)%nat ->
        affine_grid (C, H, W) !! i ≫= (.!! j)
        = Some (grid_point W j, grid_point H i))
  /\ (forall n, (1 < n)%nat ->
        grid_point n 0 = (-1)%Qc /\ grid_point n (n - 1) = 1%Qc)
  /\ grid_point 1 0 = (-1)%Qc.
Proof.
  split; [|split; [|split; [|split]]].
  - unfold affine_grid. by rewrite length_map, length_take_linear_points.
  - unfold affine_grid. apply Forall_forall. intros row Hrow.
    apply in_map_iff in Hrow as (y & <- & _).
    by rewrite length_map, length_take_linear_points.
  - intros i j Hi Hj. by apply affine_grid_lookup.
  - intros n Hn. by apply grid_point_ends.
  - reflexivity.
Qed.

Lemma identity_grid_points_witness :
  affine_grid (3, 2, 3)%nat !! 1%nat ≫= (.!! 2%nat)
  = Some (grid_point 3 2, grid_point 2 1)
  /\ grid_point 3 0 = (-1)%Qc /\ grid_point 3 (3 - 1) = 1%Qc.
Proof.
  destruct (identity_grid_points 3 2 3) as (_ & _ & Hp & He & _).
  split; [apply Hp; lia | apply He; lia].
Defined.

Lemma affine_mult_eye (c : flow) : affine_mult c (Some eye3) = c.
Proof.
  unfold affine_mult. rewrite <- (map_id c) at 2.
  apply map_ext. intros row. rewrite <- (map_id row) at 2.
  apply map_ext. intros [x y]. simpl. f_equal; ring.
Qed.

Lemma affine_mult_matmul (c : flow) (m1 m2 : mat3) :
  affine_row m1 ->
  affine_mult (affine_mult c (Some m1)) (Some m2)
  = affine_mult c (Some (matmul m2 m1)).
Proof.
  intros (H0 & H1 & H2). unfold affine_mult. rewrite map_map.
  apply map_ext. intros row. rewrite map_map.
  apply map_ext. intros [x y]. simpl. rewrite H0, H1, H2. f_equal; ring.
Qed.

(** X2. [affine_mult] with the identity matrix changes no coordinate, and
    with no matrix neither.  Mapping a flow field through [m1] and then
    through [m2] is mapping it through the product [m2 @ m1], when the last
    row of [m1] is 0 0 1. *)
Theorem affine_mult_composes (c : flow) (m1 m2 : mat3) :
  affine_mult c (Some eye3) = c
  /\ affine_mult c None = c
  /\ (affine_row m1 ->
      affine_mult (affine_mult c (Some m1)) (Some m2)
      = affine_mult c (Some (matmul m2 m1))).
Proof.
  split; [apply affine_mult_eye|]. split; [done|]. apply affine_mult_matmul.
Qed.

Lemma affine_mult_composes_witness :
  affine_mult (affine_mult (affine_grid (1, 2, 2)%nat) (Some flip_mat))
    (Some turn_mat)
  = affine_mult (affine_grid (1, 2, 2)%nat) (Some (matmul turn_mat flip_mat)).
Proof.
  apply (affine_mult_composes (affine_grid (1, 2, 2)%nat) flip_mat turn_mat).
  unfold affine_row. repeat split; reflexivity.
Defined.

Lemma zip_with_map_same {A B C D} (f : B -> C -> D) (g : A -> B) (h : A -> C)
    (l : list A) :
  zip_with f (map g l) (map h l) = map (fun a => f (g a) (h a)) l.
Proof. induction l as [|a l IH]; simpl; [done|]. by rewrite IH. Qed.

Lemma clamp_inside lo hi v : lo <= v <= hi -> clamp lo hi v = v.
Proof. unfold clamp. lia. Qed.

(** X3. Nearest mode with edge mode ['zeros'], on an image with at least
    one row and one column: the call returns, and an output pixel is zero
    when its rounded coordinate falls outside the image, and the input pixel
    at that coordinate otherwise. *)
Theorem nearest_zeros_fills (x : tensor) (coords : flow) :
  rectangular x ->
  (0 < snd (fst (tshape x)))%nat -> (0 < snd (tshape x))%nat ->
  grid_sample_nearest x coords (VStr "zeros")
  = Ok (nearest_zero_filled x coords).
Proof.
  intros Hrect Hh Hw.
  unfold grid_sample_nearest, nearest_zero_filled, rectangular in *.
  destruct (tshape x) as [[ch h] w] eqn:Es. simpl in Hh, Hw.
  rewrite !map_map.
  erewrite result_all_map_ok with
    (g := fun chan => map (map (fun '(cx, cy) =>
            nth (nearest_index w cx) (nth (nearest_index h cy) chan []) 0%Qc))
            coords).
  2: { eapply Forall_impl; [|exact Hrect]. intros chan [Hlen Hrows]. simpl.
       unfold gather_channel. rewrite !map_map.
       apply result_all_map_ok. apply Forall_forall. intros row _.
       rewrite !map_map. simpl.
       apply result_all_map_ok. apply Forall_forall. intros [cx cy] _.
       unfold nearest_index. by apply gather_pixel_clamped. }
  simpl. f_equal. rewrite map_map. apply map_ext. intros chan.
  unfold zero_masked. etrans; [apply zip_with_map_same|].
  apply map_ext. intros row. rewrite !map_map.
  etrans; [apply zip_with_map_same|].
  apply map_ext. intros [cx cy]. unfold rounded_index, nearest_index.
  set (ix := to_int64 _). set (iy := to_int64 _).
  destruct (Z.ltb_spec ix 0); [done|].
  destruct (Z.ltb_spec iy 0); [done|].
  destruct (Z.leb_spec (Z.of_nat w) ix); [done|].
  destruct (Z.leb_spec (Z.of_nat h) iy); [done|].
  simpl. by rewrite !clamp_inside by lia.
Qed.

Lemma nearest_zeros_fills_witness :
  grid_sample_nearest three_pixels (affine_grid (1, 1, 3)%nat) (VStr "zeros")
  = Ok (nearest_zero_filled three_pixels (affine_grid (1, 1, 3)%nat)).
Proof.
  apply (nearest_zeros_fills three_pixels).
  - unfold rectangular. simpl. repeat constructor.
  - simpl. lia.
  - simpl. lia.
Defined.

(** ** [listify] and the draws *)

(** X4. What [listify] returns has the requested length, and holds items
    of its argument only. *)
Theorem listify_returns_count {A} (p : listy A) (q : qarg) (l : list A) :
  listify p q = Ok l ->
  Z.of_nat (length l) = listify_count (listy_items p) q
  /\ forall a, a ∈ l -> a ∈ listy_items p.
Proof.
  unfold listify. set (items := listy_items p). set (n := listify_count items q).
  destruct (length items =? 1)%nat eqn:E1.
  - apply Nat.eqb_eq in E1.
    destruct items as [|a [|b items]]; simpl in E1; try discriminate.
    rewrite py_repeat_singleton.
    destruct (Z.eqb_spec (Z.of_nat (length (replicate (Z.to_nat n) a))) n) as [En|];
      [|discriminate].
    intros [= <-]. split; [done|].
    intros a' Ha. apply elem_of_replicate in Ha as [-> _]. by left.
  - destruct (Z.eqb_spec (Z.of_nat (length items)) n) as [En|]; [|discriminate].
    intros [= <-]. done.
Qed.

Lemma listify_returns_count_witness :
  Z.of_nat (length [5; 5]) = listify_count (listy_items (PAtom 5)) (QInt 2).
Proof.
  apply (listify_returns_count (PAtom 5) (QInt 2) [5; 5]). reflexivity.
Defined.

Lemma unit_scale_range (low high u : Qc) :
  (low <= high)%Qc -> (0 <= u)%Qc -> (u < 1)%Qc ->
  (low <= low + (high - low) * u)%Qc
  /\ (low + (high - low) * u <= high)%Qc
  /\ ((low < high)%Qc -> (low + (high - low) * u < high)%Qc).
Proof.
  intros Hlh Hu0 Hu1.
  assert (Hd : (0 <= high - low)%Qc).
  { apply Qcle_minus_iff in Hlh. exact Hlh. }
  split; [|split].
  - rewrite <- (Qcplus_0_r low) at 1. apply Qcplus_le_mono_l.
    by apply Qcmult_nonneg_nonneg.
  - replace high with (low + (high - low) * 1)%Qc at 2 by ring.
    apply Qcplus_le_mono_l. apply Qcmult_le_mono_nonneg_l; [done|].
    by apply Qclt_le_weak.
  - intros Hlt. replace high with (low + (high - low) * 1)%Qc at 2 by ring.
    apply Qcplus_lt_mono_l. apply Qcmult_lt_mono_pos_l; [|done].
    apply Qclt_minus_iff in Hlt. exact Hlt.
Qed.



Lemma draws_torch_run `{Backend} (n : nat) (g : rng) :
  draws_torch n g
  = (Ok (map torch_random (seq (torch_pos g) n)),
     Rng (py_pos g) (n + torch_pos g)).
Proof.
  revert g. induction n as [|n IH]; intros g; simpl.
  - by destruct g.
  - unfold bind, draw_torch. rewrite IH. simpl.
    do 3 f_equal. lia.
Qed.

(** X6. [uniform(low, high, size)] returns a tensor whose shape is the
    listified [size] (the empty tensor when that list is empty), filled with
    as many outputs of torch's generator as the shape has elements, each
    between [low] and [high]; [random.random()] is not touched and the call
    never fails. *)
Theorem uniform_sized_draws `{Backend} (low high : Qc) (sz : listy nat) (g : rng) :
  (forall n, (0 <= torch_random n)%Qc /\ (torch_random n < 1)%Qc) ->
  (low <= high)%Qc ->
  let dims := listy_items sz in
  let shape := if dims is [] then [0%nat] else dims in
  let n := foldr Nat.mul 1%nat shape in
  exists data,
    uniform low high (Some sz) g
    = (Ok (VTensor shape data), Rng (py_pos g) (n + torch_pos g))
    /\ length data = n
    /\ Forall (fun r => (low <= r)%Qc /\ (r <= high)%Qc) data.
Proof.
  intros Hrand Hlh dims shape n.
  rewrite uniform_size_listified. unfold FloatTensor_uniform_, bind.
  fold dims. fold shape. fold n. rewrite draws_torch_run. simpl.
  eexists. split; [reflexivity|]. split.
  - by rewrite !length_map, length_seq.
  - apply Forall_forall. intros r Hr.
    apply in_map_iff in Hr as (u & <- & Hu).
    apply in_map_iff in Hu as (k & <- & _).
    destruct (Hrand k) as [H0 H1].
    destruct (unit_scale_range low high (torch_random k) Hlh H0 H1) as (? & ? & _).
    done.
Qed.

Lemma stub_torch_range n :
  (0 <= torch_random (Backend := stub_backend) n)%Qc
  /\ (torch_random (Backend := stub_backend) n < 1)%Qc.
Proof. split; vm_compute; congruence. Qed.

Lemma uniform_sized_draws_witness :
  exists data,
    uniform (H := stub_backend) 0 1 (Some (PSeq [2; 3]%nat)) (Rng 0 0)
    = (Ok (VTensor [2; 3]%nat data), Rng 0 6)
    /\ length data = 6%nat.
Proof.
  destruct (uniform_sized_draws (H := stub_backend) 0 1 (PSeq [2; 3]%nat) (Rng 0 0)
              stub_torch_range) as (data & Hd & Hl & _).
  - vm_compute. congruence.
  - exists data. split; [exact Hd | exact Hl].
Defined.

(** ** The lazy image *)




(** X8. After two [affine] calls on an image with no flow field and no
    matrix pending, the flow field is the identity grid of the image's shape
    mapped through the matrix of the second call and then through the
    matrix of the first: the transform applied last acts first on the
    sampling coordinates.  (The second matrix has the last row 0 0 1.) *)
Theorem last_affine_acts_first (x : nat) (f g : affine_func)
    (af ag : list value) (kf kg : dict value) (mf mg : mat3) (w : world) :
  (x < length (images w))%nat ->
  _flow (image_at w x) = None -> _affine_mat (image_at w x) = None ->
  f af kf = Ok mf -> g ag kg = Ok mg -> affine_row mg ->
  let grid := affine_grid (tshape (tensor_at w (_px (image_at w x)))) in
  exists w',
    (Image_affine x f af kf ;; Image_affine x g ag kg ;; Image_flow x) w
    = (Ok (affine_mult (affine_mult grid (Some mg)) (Some mf)), w').
Proof.
  intros Hx Hfl Ham Hf Hg Hrow grid.
  unfold bind. rewrite (Image_affine_run x f af kf mf w Hf).
  rewrite (Image_affine_run x g ag kg mg _ Hg), upd_image_twice.
  set (w2 := upd_image x _ w).
  assert (Hx2 : (x < length (images w2))%nat)
    by (subst w2; by rewrite length_images_upd_image).
  destruct (Image_flow_folds x w2 Hx2) as (w' & Hrun & _).
  cbv zeta in Hrun. exists w'. rewrite Hrun. f_equal. f_equal.
  subst w2. rewrite image_at_upd_image by done.
  cbv beta. unfold set_affine_mat. cbn [_flow _affine_mat _px].
  rewrite tensor_at_upd_image, Hfl, Ham. cbn [from_option id]. fold grid.
  rewrite matmul_eye_l. symmetry. by apply affine_mult_matmul.
Qed.

Lemma last_affine_acts_first_witness :
  exists w',
    (Image_affine 0 (fun _ _ => Ok flip_mat) [] [] ;;
     Image_affine 0 (fun _ _ => Ok turn_mat) [] [] ;;
     Image_flow 0) clean_world
    = (Ok (affine_mult (affine_mult (affine_grid (1, 1, 2)%nat) (Some turn_mat))
             (Some flip_mat)), w').
Proof.
  apply (last_affine_acts_first 0 (fun _ _ => Ok flip_mat) (fun _ _ => Ok turn_mat)
           [] [] [] [] flip_mat turn_mat clean_world).
  - simpl. lia.
  - reflexivity.
  - reflexivity.
  - reflexivity.
  - reflexivity.
  - unfold affine_row. repeat split; reflexivity.
Defined.

(** A [refresh] that returns leaves nothing pending. *)
Lemma Image_refresh_settles `{Backend} (x : nat) (w w' : world) :
  Image_refresh x w = (Ok tt, w') -> settled (image_at w' x).
Proof.
  intros Hrun.
  destruct (decide (x < length (images w))%nat) as [Hx|Hx].
  2: { assert (Hd : image_at w x = mkImage 0 None None None []).
       { unfold image_at. destruct (images w !! x) eqn:E; [|done].
         apply lookup_lt_Some in E. lia. }
       rewrite Image_refresh_clean in Hrun by (by rewrite Hd).
       injection Hrun as <-. by rewrite Hd. }
  set (i := image_at w x).
  set (w1 := match _logit_px i with
             | Some l =>
                 upd_image x (set_logit_px None)
                   (upd_image x (set_px l)
                      (upd_tensor l (tmap t_sigmoid (tensor_at w l)) w))
             | None => w
             end).
  assert (Hx1 : (x < length (images w1))%nat).
  { subst w1. destruct (_logit_px i); [|done].
    by rewrite !length_images_upd_image. }
  assert (Hi1 : image_at w1 x
                = match _logit_px i with
                  | Some l => set_logit_px None (set_px l i)
                  | None => i
                  end).
  { subst w1. destruct (_logit_px i) as [l|]; [|done].
    rewrite !image_at_upd_image by (rewrite ?length_images_upd_image; done).
    done. }
  assert (Hl1 : _logit_px (image_at w1 x) = None).
  { rewrite Hi1. destruct (_logit_px i) eqn:El; simpl; done. }
  assert (Hstep : Image_refresh x w
    = (if bool_decide (_affine_mat (image_at w1 x) <> None)
          || bool_decide (_flow (image_at w1 x) <> None)
       then
         t <- read_tensor (_px (image_at w1 x)) ;;
         f <- Image_flow x ;;
         i <- get_image x ;;
         r <- lift (grid_sample_kw t f (sample_kwargs i)) ;;
         l <- alloc_tensor r ;;
         modify_image x (set_px l) ;;
         modify_image x (set_sample_kwargs []) ;;
         modify_image x (set_flow None)
       else ret tt) w1).
  { unfold Image_refresh. subst w1. unfold bind at 1. unfold get_image at 1.
    fold i. destruct (_logit_px i); reflexivity. }
  rewrite Hstep in Hrun. clear Hstep.
  destruct (bool_decide (_affine_mat (image_at w1 x) <> None)
            || bool_decide (_flow (image_at w1 x) <> None)) eqn:Hr.
  - destruct (Image_flow_folds x w1 Hx1) as (w2 & Hflow & Hts & Hlen & Hi2).
    cbv zeta in Hflow, Hi2.
    unfold bind, read_tensor in Hrun. rewrite Hflow in Hrun.
    unfold get_image at 1 in Hrun.
    destruct (grid_sample_kw _ _ _) as [r|e]; simpl in Hrun; [|discriminate].
    injection Hrun as <-. unfold settled.
    rewrite !image_at_upd_image
      by (rewrite ?length_images_upd_image, ?images_push_tensor; lia).
    rewrite image_at_push_tensor, Hi2. simpl. by rewrite Hl1.
  - injection Hrun as <-.
    apply orb_false_iff in Hr as [Hr1 Hr2].
    apply bool_decide_eq_false in Hr1, Hr2.
    unfold settled. rewrite Hl1.
    destruct (_affine_mat (image_at w1 x)), (_flow (image_at w1 x));
      try done; exfalso; auto.
Qed.

(** X9. Reading [data] twice: once a read has returned, a second read
    returns the same tensor and changes nothing in the store; the image has
    nothing pending. *)
Theorem data_read_twice `{Backend} (x l : nat) (w w' : world) :
  Image_data x w = (Ok l, w') ->
  Image_data x w' = (Ok l, w') /\ settled (image_at w' x)
  /\ l = _px (image_at w' x).
Proof.
  unfold Image_data, Image_px. unfold bind at 1.
  destruct (Image_refresh x w) as [[[]|e] w1] eqn:Hr; [|discriminate].
  unfold bind, get_image, ret. intros [= <- <-].
  pose proof (Image_refresh_settles x w w1 Hr) as (Hl & Hf & Ha).
  rewrite Image_refresh_clean by done. done.
Qed.

Lemma data_read_twice_witness :
  exists l w',
    Image_data (H := stub_backend) 0 pending_world = (Ok l, w')
    /\ Image_data (H := stub_backend) 0 w' = (Ok l, w').
Proof.
  destruct (Image_data (H := stub_backend) 0 pending_world) as [[l|e] w'] eqn:E.
  - exists l, w'. split; [reflexivity|].
    apply (data_read_twice (H := stub_backend) 0 l pending_world w' E).
  - vm_compute in E. discriminate.
Defined.

(** X10. [resize] on an image with a flow field pending fails its
    assertion and changes nothing.  Otherwise it sets the flow field to the
    identity grid of the target size (for an [int] [n]: the image's channels
    by [n] by [n]) and touches no pixel; a second [resize] before the next
    materialisation then fails. *)
Theorem resize_once (x : nat) (size : size_arg) (w : world) :
  (forall f, _flow (image_at w x) = Some f ->
     Image_resize x size w = (Err (AssertionError ""), w))
  /\ ((x < length (images w))%nat -> _flow (image_at w x) = None ->
      exists w',
        Image_resize x size w = (Ok x, w')
        /\ _flow (image_at w' x)
           = Some (affine_grid
                     (resize_target (tshape (tensor_at w (_px (image_at w x)))) size))
        /\ tensors w' = tensors w
        /\ _px (image_at w' x) = _px (image_at w x)
        /\ forall size', Image_resize x size' w' = (Err (AssertionError ""), w')).
Proof.
  split.
  - intros f Hf. unfold Image_resize, bind, get_image. by rewrite Hf.
  - intros Hx Hf.
    assert (Hrun : Image_resize x size w
      = (Ok x, upd_image x
                 (set_flow (Some (affine_grid
                    (resize_target (tshape (tensor_at w (_px (image_at w x)))) size))))
                 w)).
    { unfold Image_resize, bind, get_image. rewrite Hf.
      destruct size; reflexivity. }
    eexists. split; [exact Hrun|].
    rewrite image_at_upd_image by done. simpl.
    repeat split; try done.
    intros size'. unfold Image_resize, bind, get_image.
    rewrite image_at_upd_image by done. done.
Qed.

Lemma resize_once_witness :
  exists w',
    Image_resize 0 (SizeInt 4) clean_world = (Ok 0%nat, w')
    /\ _flow (image_at w' 0) = Some (affine_grid (1, 4, 4)%nat).
Proof.
  destruct (proj2 (resize_once 0 (SizeInt 4) clean_world))
    as (w' & Hrun & Hfl & _).
  - simpl. lia.
  - reflexivity.
  - exists w'. split; [exact Hrun | exact Hfl].
Defined.

Lemma upd_tensor_twice l t1 t2 w :
  upd_tensor l t2 (upd_tensor l t1 w) = upd_tensor l t2 w.
Proof.
  unfold upd_tensor. simpl. f_equal.
  destruct (decide (l < length (tensors w))%nat).
  - by rewrite list_insert_insert_eq.
  - by rewrite !list_insert_ge by (rewrite ?length_insert; lia).
Qed.

Lemma tensor_at_upd_tensor l t w :
  (l < length (tensors w))%nat -> tensor_at (upd_tensor l t w) l = t.
Proof.
  intros Hl. unfold tensor_at, upd_tensor. simpl.
  by rewrite list_lookup_insert_eq.
Qed.

Lemma tensor_at_upd_tensor_ne l l' t w :
  l <> l' -> tensor_at (upd_tensor l' t w) l = tensor_at w l.
Proof.
  intros Hl. unfold tensor_at, upd_tensor. simpl.
  by rewrite list_lookup_insert_ne.
Qed.

Lemma length_tensors_push_tensor t w :
  length (tensors (push_tensor t w)) = S (length (tensors w)).
Proof. unfold push_tensor. simpl. rewrite length_app. simpl. lia. Qed.

Lemma tmap_tmap f g t : tmap f (tmap g t) = tmap (fun v => f (g v)) t.
Proof.
  unfold tmap. rewrite map_map. apply map_ext. intros c.
  rewrite map_map. apply map_ext. intros r. by rewrite map_map.
Qed.

Lemma logit_run `{Backend} (l : nat) (w : world) :
  (l < length (tensors w))%nat ->
  logit_ l w = (Ok l, upd_tensor l (tmap logit_value (tensor_at w l)) w).
Proof.
  intros Hl. unfold logit_, bind, map_in_place, bind, read_tensor, write_tensor, ret.
  rewrite !tensor_at_upd_tensor by (rewrite ?length_tensors_upd_tensor; done).
  rewrite !upd_tensor_twice, !tmap_tmap. done.
Qed.

Lemma Image_px_settled `{Backend} (x : nat) (w : world) :
  settled (image_at w x) -> Image_px x w = (Ok (_px (image_at w x)), w).
Proof.
  intros (Hl & Hf & Ha). unfold Image_px, bind.
  by rewrite Image_refresh_clean.
Qed.

(** A [refresh] with only a logit buffer pending maps it through
    [sigmoid_] where it is and makes it the pixels. *)
Lemma Image_refresh_logit `{Backend} (x l : nat) (w : world) :
  (x < length (images w))%nat ->
  _logit_px (image_at w x) = Some l ->
  _flow (image_at w x) = None -> _affine_mat (image_at w x) = None ->
  Image_refresh x w
  = (Ok tt,
     upd_image x (fun i => set_logit_px None (set_px l i))
       (upd_tensor l (tmap t_sigmoid (tensor_at w l)) w)).
Proof.
  intros Hx Hl Hf Ha. unfold Image_refresh. unfold bind at 1.
  unfold get_image at 1. rewrite Hl.
  unfold bind at 1. unfold bind at 1.
  unfold map_in_place, bind, read_tensor, write_tensor, modify_image, get_image.
  rewrite upd_image_twice.
  rewrite image_at_upd_image by done.
  rewrite image_at_upd_tensor. simpl. by rewrite Ha, Hf.
Qed.

(** X11. [lighting], as its docstring has it: on an image with nothing
    pending, [lighting(func)] followed by a read of [data] gives
    [sigmoid(func(logit(pixels)))].  The tensor the image started from is
    overwritten: it holds the result when [func] works in place, and the
    logit of the pixels when [func] returns a new tensor, which then becomes
    the image's pixels. *)
Theorem lighting_then_data `{Backend} (x : nat) (f : tensor_func)
    (args : list value) (kw : dict value) (w : world) (t' : tensor) :
  (x < length (images w))%nat ->
  (_px (image_at w x) < length (tensors w))%nat ->
  settled (image_at w x) ->
  run f args kw (tmap logit_value (tensor_at w (_px (image_at w x)))) = Ok t' ->
  let l := _px (image_at w x) in
  let l' := if in_place f then l else length (tensors w) in
  exists w',
    (Image_lighting x f args kw ;; Image_data x) w = (Ok l', w')
    /\ _px (image_at w' x) = l'
    /\ tensor_at w' l' = tmap t_sigmoid t'
    /\ settled (image_at w' x)
    /\ tensor_at w' l
       = (if in_place f then tmap t_sigmoid t'
          else tmap logit_value (tensor_at w l)).
Proof.
  intros Hx Hlv Hs Hrun l l'. pose proof Hs as (Hlg & Hf & Ha).
  (* the logit buffer is made from the pixels, in place *)
  set (w1 := upd_tensor l (tmap logit_value (tensor_at w l)) w).
  set (w2 := upd_image x (set_logit_px (Some l)) w1).
  assert (E1 : Image_logit_px x w = (Ok l, w2)).
  { unfold Image_logit_px. unfold bind at 1. unfold get_image at 1. rewrite Hlg.
    unfold bind at 1. unfold bind at 1. rewrite Image_px_settled by done.
    unfold bind at 1. rewrite logit_run by done. fold l. fold w1.
    unfold modify_image. fold w2. unfold bind, get_image, ret.
    subst w2. rewrite image_at_upd_image by done. done. }
  assert (Ht2 : tensor_at w2 l = tmap logit_value (tensor_at w l)).
  { subst w2 w1. rewrite tensor_at_upd_image. by apply tensor_at_upd_tensor. }
  assert (Hx2 : (x < length (images w2))%nat).
  { subst w2 w1. by rewrite length_images_upd_image. }
  assert (Hlen2 : length (tensors w2) = length (tensors w)).
  { subst w2 w1. rewrite tensors_upd_image. apply length_tensors_upd_tensor. }
  assert (Hi2 : image_at w2 x = set_logit_px (Some l) (image_at w x)).
  { subst w2 w1. by rewrite image_at_upd_image. }
  (* the function runs on the buffer *)
  set (w3 := if in_place f then upd_tensor l t' w2 else push_tensor t' w2).
  assert (E2 : call_tensor_func f args kw l w2 = (Ok l', w3)).
  { unfold call_tensor_func, bind, read_tensor. rewrite Ht2. fold l in Hrun.
    rewrite Hrun. simpl. subst l' w3. destruct (in_place f); simpl; [done|].
    unfold alloc_tensor. by rewrite Hlen2. }
  assert (Ht3 : tensor_at w3 l' = t').
  { subst w3 l'. destruct (in_place f).
    - apply tensor_at_upd_tensor. by rewrite Hlen2.
    - rewrite <- Hlen2. apply tensor_at_push_tensor_new. }
  assert (Hx3 : (x < length (images w3))%nat).
  { subst w3. by destruct (in_place f). }
  assert (Hi3 : image_at w3 x = image_at w2 x).
  { subst w3. by destruct (in_place f). }
  set (w4 := upd_image x (set_logit_px (Some l')) w3).
  assert (E3 : Image_lighting x f args kw w = (Ok x, w4)).
  { unfold Image_lighting, bind. rewrite E1, E2. done. }
  assert (Hi4 : image_at w4 x = set_logit_px (Some l') (image_at w x)).
  { subst w4. rewrite image_at_upd_image by done. rewrite Hi3, Hi2. done. }
  (* the read maps the buffer back *)
  set (w5 := upd_image x (fun i => set_logit_px None (set_px l' i))
               (upd_tensor l' (tmap t_sigmoid (tensor_at w4 l')) w4)).
  assert (E4 : Image_refresh x w4 = (Ok tt, w5)).
  { apply Image_refresh_logit.
    - subst w4. by rewrite length_images_upd_image.
    - by rewrite Hi4.
    - by rewrite Hi4.
    - by rewrite Hi4. }
  assert (Hi5 : image_at w5 x = set_px l' (image_at w x)).
  { subst w5. rewrite image_at_upd_image
      by (rewrite images_upd_tensor; subst w4; by rewrite length_images_upd_image).
    rewrite image_at_upd_tensor, Hi4. destruct (image_at w x). simpl in *.
    unfold set_logit_px, set_px. simpl. by rewrite Hlg. }
  assert (Hl'4 : (l' < length (tensors w4))%nat).
  { subst w4. rewrite tensors_upd_image. subst w3 l'. destruct (in_place f).
    - by rewrite length_tensors_upd_tensor, Hlen2.
    - rewrite length_tensors_push_tensor, Hlen2. lia. }
  assert (Ht5 : tensor_at w5 l' = tmap t_sigmoid t').
  { subst w5. rewrite tensor_at_upd_image, tensor_at_upd_tensor by done.
    subst w4. by rewrite tensor_at_upd_image, Ht3. }
  exists w5. split; [|split; [|split; [|split]]].
  - unfold bind. rewrite E3. unfold Image_data, Image_px, bind. rewrite E4.
    unfold get_image, ret. by rewrite Hi5.
  - by rewrite Hi5.
  - exact Ht5.
  - rewrite Hi5. unfold settled. simpl. done.
  - subst l'. destruct (in_place f) eqn:Eip; [exact Ht5|].
    subst w5. rewrite tensor_at_upd_image.
    rewrite tensor_at_upd_tensor_ne by lia.
    subst w4. rewrite tensor_at_upd_image. subst w3.
    rewrite tensor_at_push_tensor_old by (rewrite Hlen2; done).
    exact Ht2.
Qed.

Lemma lighting_then_data_witness :
  exists w',
    (Image_lighting (H := stub_backend) 0 keep_logit [] [] ;;
     Image_data (H := stub_backend) 0) clean_world = (Ok 0%nat, w')
    /\ tensor_at w' 0
       = tmap (t_sigmoid (Backend := stub_backend))
           (tmap (logit_value (H := stub_backend)) two_pixels).
Proof.
  destruct (lighting_then_data (H := stub_backend) 0 keep_logit [] [] clean_world
              (tmap (logit_value (H := stub_backend)) two_pixels))
    as (w' & Hrun & _ & Ht & _).
  - simpl. lia.
  - simpl. lia.
  - unfold settled. repeat split; reflexivity.
  - reflexivity.
  - exists w'. split; [exact Hrun | exact Ht].
Defined.

(** The first [lighting] on an image with nothing pending. *)
Lemma Image_lighting_first `{Backend} (x : nat) (f : tensor_func)
    (args : list value) (kw : dict value) (w : world) (t' : tensor) :
  (x < length (images w))%nat ->
  (_px (image_at w x) < length (tensors w))%nat ->
  settled (image_at w x) ->
  run f args kw (tmap logit_value (tensor_at w (_px (image_at w x)))) = Ok t' ->
  exists l' w',
    Image_lighting x f args kw w = (Ok x, w')
    /\ image_at w' x = set_logit_px (Some l') (image_at w x)
    /\ tensor_at w' l' = t'
    /\ (l' < length (tensors w'))%nat
    /\ (x < length (images w'))%nat.
Proof.
  intros Hx Hlv Hs Hrun. pose proof Hs as (Hlg & Hf & Ha).
  set (l := _px (image_at w x)) in *.
  set (w1 := upd_tensor l (tmap logit_value (tensor_at w l)) w).
  set (w2 := upd_image x (set_logit_px (Some l)) w1).
  assert (E1 : Image_logit_px x w = (Ok l, w2)).
  { unfold Image_logit_px. unfold bind at 1. unfold get_image at 1. rewrite Hlg.
    unfold bind at 1. unfold bind at 1. rewrite Image_px_settled by done.
    unfold bind at 1. rewrite logit_run by done. fold l. fold w1.
    unfold modify_image. fold w2. unfold bind, get_image, ret.
    subst w2. rewrite image_at_upd_image by done. done. }
  assert (Ht2 : tensor_at w2 l = tmap logit_value (tensor_at w l)).
  { subst w2 w1. rewrite tensor_at_upd_image. by apply tensor_at_upd_tensor. }
  assert (Hlen2 : length (tensors w2) = length (tensors w)).
  { subst w2 w1. rewrite tensors_upd_image. apply length_tensors_upd_tensor. }
  assert (Hi2 : image_at w2 x = set_logit_px (Some l) (image_at w x)).
  { subst w2 w1. by rewrite image_at_upd_image. }
  set (l' := if in_place f then l else length (tensors w)).
  set (w3 := if in_place f then upd_tensor l t' w2 else push_tensor t' w2).
  assert (E2 : call_tensor_func f args kw l w2 = (Ok l', w3)).
  { unfold call_tensor_func, bind, read_tensor. rewrite Ht2, Hrun. simpl.
    subst l' w3. destruct (in_place f); simpl; [done|].
    unfold alloc_tensor. by rewrite Hlen2. }
  assert (Hx3 : (x < length (images w3))%nat).
  { subst w3 w2 w1. destruct (in_place f); simpl; by rewrite length_insert. }
  assert (Hi3 : image_at w3 x = image_at w2 x).
  { subst w3. by destruct (in_place f). }
  exists l', (upd_image x (set_logit_px (Some l')) w3).
  split; [|split; [|split; [|split]]].
  - unfold Image_lighting, bind. by rewrite E1, E2.
  - rewrite image_at_upd_image by done. by rewrite Hi3, Hi2.
  - rewrite tensor_at_upd_image. subst w3 l'. destruct (in_place f).
    + apply tensor_at_upd_tensor. by rewrite Hlen2.
    + rewrite <- Hlen2. apply tensor_at_push_tensor_new.
  - rewrite tensors_upd_image. subst w3 l'. destruct (in_place f).
    + by rewrite length_tensors_upd_tensor, Hlen2.
    + rewrite length_tensors_push_tensor, Hlen2. lia.
  - by rewrite length_images_upd_image.
Qed.

(** A further [lighting], on an image whose logit buffer is pending: the
    buffer is not made again. *)
Lemma Image_lighting_next `{Backend} (x l : nat) (g : tensor_func)
    (args : list value) (kw : dict value) (w : world) (t' : tensor) :
  (x < length (images w))%nat ->
  _logit_px (image_at w x) = Some l ->
  (l < length (tensors w))%nat ->
  run g args kw (tensor_at w l) = Ok t' ->
  exists l' w',
    Image_lighting x g args kw w = (Ok x, w')
    /\ image_at w' x = set_logit_px (Some l') (image_at w x)
    /\ tensor_at w' l' = t'
    /\ (l' < length (tensors w'))%nat
    /\ (x < length (images w'))%nat.
Proof.
  intros Hx Hlg Hl Hrun.
  assert (E1 : Image_logit_px x w = (Ok l, w)).
  { unfold Image_logit_px, bind, get_image. rewrite Hlg. simpl. by rewrite Hlg. }
  set (l' := if in_place g then l else length (tensors w)).
  set (w3 := if in_place g then upd_tensor l t' w else push_tensor t' w).
  assert (E2 : call_tensor_func g args kw l w = (Ok l', w3)).
  { unfold call_tensor_func, bind, read_tensor. rewrite Hrun. simpl.
    subst l' w3. by destruct (in_place g). }
  assert (Hx3 : (x < length (images w3))%nat).
  { subst w3. by destruct (in_place g). }
  assert (Hi3 : image_at w3 x = image_at w x).
  { subst w3. by destruct (in_place g). }
  exists l', (upd_image x (set_logit_px (Some l')) w3).
  split; [|split; [|split; [|split]]].
  - unfold Image_lighting, bind. by rewrite E1, E2.
  - rewrite image_at_upd_image by done. by rewrite Hi3.
  - rewrite tensor_at_upd_image. subst w3 l'. destruct (in_place g).
    + by apply tensor_at_upd_tensor.
    + apply tensor_at_push_tensor_new.
  - rewrite tensors_upd_image. subst w3 l'. destruct (in_place g).
    + by rewrite length_tensors_upd_tensor.
    + rewrite length_tensors_push_tensor. lia.
  - by rewrite length_images_upd_image.
Qed.

(** A read of [data] with only a logit buffer pending. *)
Lemma Image_data_logit `{Backend} (x l : nat) (w : world) :
  (x < length (images w))%nat ->
  _logit_px (image_at w x) = Some l ->
  _flow (image_at w x) = None -> _affine_mat (image_at w x) = None ->
  (l < length (tensors w))%nat ->
  exists w',
    Image_data x w = (Ok l, w')
    /\ tensor_at w' l = tmap t_sigmoid (tensor_at w l)
    /\ _px (image_at w' x) = l
    /\ settled (image_at w' x).
Proof.
  intros Hx Hlg Hf Ha Hl. eexists.
  unfold Image_data, Image_px, bind.
  rewrite (Image_refresh_logit x l w Hx Hlg Hf Ha).
  unfold get_image, ret.
  rewrite image_at_upd_image by (by rewrite images_upd_tensor).
  rewrite image_at_upd_tensor. simpl. split; [reflexivity|].
  rewrite image_at_upd_image by (by rewrite images_upd_tensor).
  rewrite image_at_upd_tensor. split; [|split].
  - rewrite tensor_at_upd_image. by apply tensor_at_upd_tensor.
  - done.
  - unfold settled. simpl. done.
Qed.

(** X12. Lighting transforms compose in logit space: on an image with
    nothing pending, [lighting(f)], [lighting(g)] and a read of [data] give
    [sigmoid(g(f(logit(pixels))))], with one [logit_] and one [sigmoid_],
    whether [f] and [g] work in place or not. *)
Theorem lighting_composes `{Backend} (x : nat) (f g : tensor_func)
    (af ag : list value) (kf kg : dict value) (w : world) (tf tg : tensor) :
  (x < length (images w))%nat ->
  (_px (image_at w x) < length (tensors w))%nat ->
  settled (image_at w x) ->
  run f af kf (tmap logit_value (tensor_at w (_px (image_at w x)))) = Ok tf ->
  run g ag kg tf = Ok tg ->
  exists l' w',
    (Image_lighting x f af kf ;; Image_lighting x g ag kg ;; Image_data x) w
    = (Ok l', w')
    /\ tensor_at w' l' = tmap t_sigmoid tg
    /\ _px (image_at w' x) = l'
    /\ settled (image_at w' x).
Proof.
  intros Hx Hlv Hs Hf Hg. pose proof Hs as (Hlg & Hfl & Ha).
  destruct (Image_lighting_first x f af kf w tf Hx Hlv Hs Hf)
    as (l1 & w1 & E1 & Hi1 & Ht1 & Hl1 & Hx1).
  destruct (Image_lighting_next x l1 g ag kg w1 tg Hx1) as
    (l2 & w2 & E2 & Hi2 & Ht2 & Hl2 & Hx2).
  { by rewrite Hi1. }
  { done. }
  { by rewrite Ht1. }
  destruct (Image_data_logit x l2 w2 Hx2) as (w3 & E3 & Ht3 & Hp3 & Hs3).
  { by rewrite Hi2. }
  { by rewrite Hi2, Hi1. }
  { by rewrite Hi2, Hi1. }
  { done. }
  exists l2, w3. split; [|split; [|split]].
  - unfold bind. by rewrite E1, E2, E3.
  - by rewrite Ht3, Ht2.
  - exact Hp3.
  - exact Hs3.
Qed.

Lemma lighting_composes_witness :
  exists l' w',
    (Image_lighting (H := stub_backend) 0 double_logit [] [] ;;
     Image_lighting (H := stub_backend) 0 keep_logit [] [] ;;
     Image_data (H := stub_backend) 0) clean_world = (Ok l', w')
    /\ tensor_at w' l'
       = tmap (t_sigmoid (Backend := stub_backend))
           (tmap (fun v => v * Qc_of_Z 2)%Qc
              (tmap (logit_value (H := stub_backend)) two_pixels)).
Proof.
  destruct (lighting_composes (H := stub_backend) 0 double_logit keep_logit
              [] [] [] [] clean_world
              (tmap (fun v => v * Qc_of_Z 2)%Qc
                 (tmap (logit_value (H := stub_backend)) two_pixels))
              (tmap (fun v => v * Qc_of_Z 2)%Qc
                 (tmap (logit_value (H := stub_backend)) two_pixels)))
    as (l' & w' & Hrun & Ht & _).
  - simpl. lia.
  - simpl. lia.
  - unfold settled. repeat split; reflexivity.
  - reflexivity.
  - reflexivity.
  - exists l', w'. split; [exact Hrun | exact Ht].
Defined.

(** ** Resolution *)

Lemma dict_get_set_eq {V} (d : dict V) k v : dict_get (dict_set d k v) k = Some v.
Proof.
  induction d as [|[k' v'] d IH]; simpl.
  - by rewrite String.eqb_refl.
  - destruct (String.eqb_spec k k') as [->|Hne]; simpl.
    + by rewrite String.eqb_refl.
    + destruct (String.eqb_spec k k'); [done|]. exact IH.
Qed.

Lemma dict_get_set_ne {V} (d : dict V) k k' v :
  k' <> k -> dict_get (dict_set d k v) k' = dict_get d k'.
Proof.
  intros Hne. induction d as [|[k0 v0] d IH]; simpl.
  - destruct (String.eqb_spec k' k); [done|]. done.
  - destruct (String.eqb_spec k k0) as [->|Hk]; simpl.
    + destruct (String.eqb_spec k' k0); [done|]. done.
    + destruct (String.eqb_spec k' k0); [done|]. exact IH.
Qed.

Lemma dict_get_None {V} (d : dict V) k : dict_get d k = None <-> k ∉ d.*1.
Proof.
  induction d as [|[k' v'] d IH]; simpl.
  - split; [intros _ Hin; by apply elem_of_nil in Hin | done].
  - destruct (String.eqb_spec k k') as [->|Hne].
    + split; [done|]. intros Hn. exfalso. apply Hn. by left.
    + rewrite IH. split.
      * intros Hn Hin. apply elem_of_cons in Hin as [?|?]; done.
      * intros Hn Hin. apply Hn. by right.
Qed.

Lemma dict_in_keys {V} (d : dict V) k : dict_in k d = true <-> k ∈ d.*1.
Proof.
  unfold dict_in. destruct (dict_get d k) eqn:E.
  - split; [|done]. intros _.
    destruct (decide (k ∈ d.*1)) as [|Hn]; [done|].
    apply dict_get_None in Hn. congruence.
  - split; [done|]. intros Hin. apply dict_get_None in E. done.
Qed.

Lemma dict_get_elem {V} (d : dict V) k v : dict_get d k = Some v -> (k, v) ∈ d.
Proof.
  induction d as [|[k' v'] d IH]; simpl; [done|].
  destruct (String.eqb_spec k k') as [->|Hne].
  - intros [= ->]. by left.
  - intros Hg. right. by apply IH.
Qed.

Lemma dict_get_app {V} (a b : dict V) k :
  dict_get (a ++ b) k
  = match dict_get a k with Some v => Some v | None => dict_get b k end.
Proof.
  induction a as [|[k' v'] a IH]; simpl; [done|].
  by destruct (String.eqb k k').
Qed.

Lemma dict_in_set {V} (d : dict V) k k' v :
  dict_in k' (dict_set d k v) = true <-> k' = k \/ dict_in k' d = true.
Proof.
  unfold dict_in. destruct (decide (k' = k)) as [->|Hne].
  - rewrite dict_get_set_eq. split; [by left | done].
  - rewrite dict_get_set_ne by done. split; [by right|]. by intros [?|?].
Qed.

Lemma dict_get_merge {V} (a b : dict V) k :
  NoDup b.*1 ->
  dict_get (dict_merge a b) k
  = match dict_get b k with Some v => Some v | None => dict_get a k end.
Proof.
  unfold dict_merge. revert a. induction b as [|[k0 v0] b IH]; intros a Hnd; simpl.
  - done.
  - simpl in Hnd. pose proof (NoDup_cons_1_1 _ _ Hnd) as Hk0.
    apply NoDup_cons_1_2 in Hnd. rewrite IH by done. cbn [fst snd].
    destruct (String.eqb_spec k k0) as [->|Hne].
    + apply dict_get_None in Hk0. rewrite Hk0. apply dict_get_set_eq.
    + destruct (dict_get b k); [done|]. by apply dict_get_set_ne.
Qed.

(** X13. [resolve] on an instance that is not random draws nothing:
    [resolved] becomes the descriptor's defaults overridden by the raw
    keyword arguments, taken as they are; [do_run] and the random sources
    are left as they were. *)
Theorem resolve_not_random `{Backend} (r : RandTransform) (g : rng) :
  is_random r = false -> NoDup (kwargs r).*1 ->
  exists r',
    RandTransform_resolve (r, g) = (Ok tt, (r', g))
    /\ (forall k,
          dict_get (resolved r') k
          = match dict_get (kwargs r) k with
            | Some v => Some v
            | None => dict_get (def_args (tfm r)) k
            end)
    /\ do_run r' = do_run r /\ tfm r' = tfm r /\ kwargs r' = kwargs r
    /\ p r' = p r.
Proof.
  intros Hir Hnd. eexists. split.
  - unfold RandTransform_resolve, bind, self_get. simpl. rewrite Hir. simpl.
    reflexivity.
  - simpl. split; [|done]. intros k. by apply dict_get_merge.
Qed.

Lemma resolve_not_random_witness :
  exists r',
    RandTransform_resolve (H := stub_backend) (copy_instance, Rng 0 0)
    = (Ok tt, (r', Rng 0 0))
    /\ do_run r' = true.
Proof.
  destruct (resolve_not_random (H := stub_backend) copy_instance (Rng 0 0))
    as (r' & Hrun & _ & Hd & _).
  - reflexivity.
  - simpl. apply NoDup_nil_2.
  - exists r'. split; [exact Hrun | exact Hd].
Defined.

(** A loop over [l] with an invariant on the part of [l] already seen. *)
Lemma hoare_for_each_prefix {St A} (Inv : list A -> St -> Prop) (E : St -> Prop)
    (l : list A) (body : A -> ST St unit) :
  (forall pre a post, l = pre ++ a :: post ->
     hoare (Inv pre) (body a) (fun _ => Inv (pre ++ [a])) E) ->
  hoare (Inv []) (for_each l body) (fun _ => Inv l) E.
Proof.
  intros Hb.
  assert (Hgen : forall post pre, l = pre ++ post ->
            hoare (Inv pre) (for_each post body) (fun _ => Inv l) E).
  { induction post as [|a post IH]; intros pre Hl; simpl.
    - apply hoare_ret. intros s Hs. by rewrite Hl, app_nil_r.
    - eapply hoare_bind; [by apply (Hb pre a post)|].
      intros ?. apply IH. by rewrite <- app_assoc. }
  by apply (Hgen l []).
Qed.

Section ResolveFills.
Context `{Backend} (r0 : RandTransform).
Hypothesis Hnd : NoDup (kwargs r0).*1.

(** the exceptional outcome: some parameter is annotated *)
Let E (s : RandTransform * rng) : Prop := params (tfm r0) <> [].

Let on_resolved (Q : dict value -> Prop) (s : RandTransform * rng) : Prop :=
  Q (resolved (fst s)).

Lemma fills_with_rng {A} (Q : dict value -> Prop) (m : ST rng A) :
  params (tfm r0) <> [] ->
  hoare (on_resolved Q) (with_rng m) (fun _ => on_resolved Q) E.
Proof.
  intros Hp [r g] Hs. unfold with_rng. simpl.
  destruct (m g) as [[a|e] g']; [exact Hs | exact Hp].
Qed.

Lemma fills_resolved_set (Q : dict value -> Prop) k v :
  hoare (on_resolved (fun d => Q (dict_set d k v))) (resolved_set k v)
    (fun _ => on_resolved Q) E.
Proof. intros [r g] Hs. simpl. exact Hs. Qed.

Lemma fills_lift {A} (Q : dict value -> Prop) (x : result A) :
  params (tfm r0) <> [] ->
  hoare (on_resolved Q) (lift x) (fun _ => on_resolved Q) E.
Proof. intros Hp. apply hoare_lift; [by intros | by intros]. Qed.

(** the first loop, over the raw keyword arguments *)
Let Inv1 (pre : dict value) (d : dict value) : Prop :=
  (forall k v, (k, v) ∈ pre -> dict_get (params (tfm r0)) k = None ->
     dict_get d k = Some v)
  /\ (forall k, dict_in k d = true <-> k ∈ pre.*1).

Lemma fills_loop1 :
  hoare (on_resolved (Inv1 []))
    (for_each (kwargs r0) (fun '(k, v) =>
       match dict_get (params (tfm r0)) k with
       | Some rand_func =>
           a <- lift (value_listy v) ;;
           args <- lift (listify a QNone) ;;
           r <- with_rng (rand_func args) ;;
           resolved_set k r
       | None => resolved_set k v
       end))
    (fun _ => on_resolved (Inv1 (kwargs r0))) E.
Proof.
  apply (hoare_for_each_prefix (fun pre => on_resolved (Inv1 pre))).
  intros pre [k v] post Hl.
  assert (Hk : k ∉ pre.*1).
  { rewrite Hl, fmap_app in Hnd. apply list.NoDup_app in Hnd as (_ & Hdis & _).
    intros Hin. apply (Hdis k Hin). simpl. by left. }
  assert (Hset : forall v' d, Inv1 pre d ->
            dict_get (params (tfm r0)) k = None -> v' = v \/ True ->
            (dict_get (params (tfm r0)) k = None -> v' = v) ->
            Inv1 (pre ++ [(k, v)]) (dict_set d k v')).
  { intros v' d [HA HB] _ _ Hv. split.
    - intros k0 v0 Hin Hun. apply elem_of_app in Hin as [Hin|Hin].
      + rewrite dict_get_set_ne; [by apply HA|].
        intros ->. apply Hk. apply list_elem_of_fmap. by exists (k, v0).
      + apply list_elem_of_singleton in Hin as [= -> ->].
        rewrite dict_get_set_eq. f_equal. by apply Hv.
    - intros k0. rewrite dict_in_set, HB, fmap_app, elem_of_app. simpl.
      rewrite list_elem_of_singleton. tauto. }
  destruct (dict_get (params (tfm r0)) k) as [rf|] eqn:Ep.
  - assert (Hp : params (tfm r0) <> []) by (by destruct (params (tfm r0))).
    eapply hoare_bind; [by apply fills_lift|]. intros a.
    eapply hoare_bind; [by apply fills_lift|]. intros args.
    eapply hoare_bind; [by apply fills_with_rng|]. intros v'.
    eapply hoare_weaken; [apply (fills_resolved_set (Inv1 (pre ++ [(k, v)]))) | | done | done].
    intros [r g] [HA HB]. unfold on_resolved. simpl. split.
    + intros k0 v0 Hin Hun. apply elem_of_app in Hin as [Hin|Hin].
      * rewrite dict_get_set_ne; [by apply HA|].
        intros ->. apply Hk. apply list_elem_of_fmap. by exists (k, v0).
      * apply list_elem_of_singleton in Hin as [= -> ->]. congruence.
    + intros k0. rewrite dict_in_set, HB, fmap_app, elem_of_app. simpl.
      rewrite list_elem_of_singleton. tauto.
  - eapply hoare_weaken; [apply (fills_resolved_set (Inv1 (pre ++ [(k, v)]))) | | done | done].
    intros [r g] Hs. unfold on_resolved. simpl. apply Hset; auto.
Qed.

(** a key that is not yet resolved takes its value and disturbs no other *)
Lemma resolved_so_far_keeps defs ks d k v :
  dict_in k d = false ->
  resolved_so_far r0 defs ks d ->
  (forall k0 v0, dict_get d k0 = Some v0 -> dict_get (dict_set d k v) k0 = Some v0)
  /\ (forall k0, dict_in k0 d = true -> dict_in k0 (dict_set d k v) = true).
Proof.
  intros Hk _. split.
  - intros k0 v0 Hg. rewrite dict_get_set_ne; [done|].
    intros ->. unfold dict_in in Hk. by rewrite Hg in Hk.
  - intros k0 Hin. apply dict_in_set. by right.
Qed.

(** the second loop, over the defaults *)
Lemma fills_loop2 :
  hoare (on_resolved (fun d =>
            resolved_so_far r0 [] [] d
            /\ forall k, dict_in k d = true -> k ∈ (kwargs r0).*1))
    (for_each (def_args (tfm r0)) (fun '(k, v) =>
       self <- self_get ;;
       if dict_in k (resolved self) then ret tt else resolved_set k v))
    (fun _ => on_resolved (fun d =>
       resolved_so_far r0 (def_args (tfm r0)) (def_args (tfm r0)).*1 d)) E.
Proof.
  eapply hoare_weaken with
    (Q' := fun _ => on_resolved (fun d =>
       resolved_so_far r0 (def_args (tfm r0)) (def_args (tfm r0)).*1 d
       /\ forall k, dict_in k d = true ->
            k ∈ (kwargs r0).*1 \/ k ∈ (def_args (tfm r0)).*1));
    [| | by intros ? ? [? _] | done].
  - apply (hoare_for_each_prefix (fun pre => on_resolved (fun d =>
       resolved_so_far r0 pre pre.*1 d
       /\ forall k, dict_in k d = true -> k ∈ (kwargs r0).*1 \/ k ∈ pre.*1))).
    intros pre [k v] post Hl [r g] [(HA & HB & HC & HD) HF].
    unfold bind, self_get. cbn [fst snd].
    destruct (dict_in k (resolved r)) eqn:Ein; simpl; unfold on_resolved; simpl.
    + (* the key has a value already *)
      split; [split; [done|split; [done|split]]|].
      * intros k0 v0 Hg Hnk. rewrite dict_get_app in Hg.
        destruct (dict_get pre k0) eqn:Ep; [injection Hg as <-; by apply HC|].
        simpl in Hg. destruct (String.eqb_spec k0 k) as [->|]; [|done].
        exfalso. destruct (HF k Ein) as [?|Hin]; [done|].
        apply dict_get_None in Ep. done.
      * intros k0 Hin. rewrite fmap_app in Hin.
        apply elem_of_app in Hin as [Hin|Hin]; [by apply HD|].
        apply list_elem_of_singleton in Hin as ->. done.
      * intros k0 Hin. destruct (HF k0 Hin) as [?|?]; [by left|].
        right. rewrite fmap_app. apply elem_of_app. by left.
    + (* the default is taken *)
      assert (Hne : forall k0 v0, dict_get (resolved r) k0 = Some v0 -> k0 <> k).
      { intros k0 v0 Hg ->. unfold dict_in in Ein. by rewrite Hg in Ein. }
      split; [split; [|split; [|split]]|].
      * intros k0 v0 Hin Hun. rewrite dict_get_set_ne; [by apply HA|].
        eapply Hne. by apply HA.
      * intros k0 Hin. apply dict_in_set. right. by apply HB.
      * intros k0 v0 Hg Hnk. rewrite dict_get_app in Hg.
        destruct (dict_get pre k0) eqn:Ep.
        -- injection Hg as <-. rewrite dict_get_set_ne; [by apply HC|].
           eapply Hne. by apply HC.
        -- simpl in Hg. destruct (String.eqb_spec k0 k) as [->|]; [|done].
           injection Hg as <-. apply dict_get_set_eq.
      * intros k0 Hin. apply dict_in_set. rewrite fmap_app in Hin.
        apply elem_of_app in Hin as [Hin|Hin]; [right; by apply HD|].
        apply list_elem_of_singleton in Hin as ->. by left.
      * intros k0 Hin. apply dict_in_set in Hin as [->|Hin].
        -- right. rewrite fmap_app. apply elem_of_app. right. simpl. by left.
        -- destruct (HF k0 Hin) as [?|?]; [by left|].
           right. rewrite fmap_app. apply elem_of_app. by left.
  - intros [r g] [(HA & HB & HC & HD) HF]. split; [done|].
    intros k Hin. left. by apply HF.
Qed.

(** the third loop, over the annotated parameters *)
Lemma fills_loop3 :
  hoare (on_resolved (fun d =>
            resolved_so_far r0 (def_args (tfm r0)) (def_args (tfm r0)).*1 d))
    (for_each (params (tfm r0)) (fun '(k, v) =>
       self <- self_get ;;
       if dict_in k (resolved self) then ret tt
       else r <- with_rng (v []) ;; resolved_set k r))
    (fun _ => on_resolved (fun d =>
       resolved_so_far r0 (def_args (tfm r0))
         ((def_args (tfm r0)).*1 ++ (params (tfm r0)).*1) d)) E.
Proof.
  eapply hoare_weaken with
    (P' := on_resolved (fun d =>
       resolved_so_far r0 (def_args (tfm r0))
         ((def_args (tfm r0)).*1 ++ ([] : dict rand_func).*1) d))
    (Q' := fun _ => on_resolved (fun d =>
       resolved_so_far r0 (def_args (tfm r0))
         ((def_args (tfm r0)).*1 ++ (params (tfm r0)).*1) d))
    (E' := E);
    [| | done | done].
  2: { intros s Hs. unfold on_resolved in *. simpl. by rewrite app_nil_r. }
  apply (hoare_for_each_prefix (fun pre => on_resolved (fun d =>
     resolved_so_far r0 (def_args (tfm r0))
       ((def_args (tfm r0)).*1 ++ pre.*1) d))).
  intros pre [k rf] post Hl.
  assert (Hp : params (tfm r0) <> []) by (rewrite Hl; by destruct pre).
  eapply hoare_bind with
    (Q := fun self s => on_resolved (fun d => resolved_so_far r0
                           (def_args (tfm r0)) ((def_args (tfm r0)).*1 ++ pre.*1) d) s
                        /\ self = fst s).
  { intros s Hs. simpl. done. }
  intros self. destruct (dict_in k (resolved self)) eqn:Ein.
  - apply hoare_ret. intros [r g] [(HA & HB & HC & HD) ->].
    unfold on_resolved. simpl in *. split; [done|split; [done|split; [done|]]].
    intros k0 Hin. rewrite fmap_app, app_assoc in Hin.
    apply elem_of_app in Hin as [Hin|Hin]; [by apply HD|].
    apply list_elem_of_singleton in Hin as ->. done.
  - eapply hoare_bind with
      (Q := fun _ s => on_resolved (fun d => resolved_so_far r0
                          (def_args (tfm r0)) ((def_args (tfm r0)).*1 ++ pre.*1) d
                          /\ dict_in k d = false) s).
    { intros [r g] [Hs ->]. unfold with_rng. simpl in *.
      destruct (rf [] g) as [[a|e] g']; [|exact Hp].
      unfold on_resolved. simpl. done. }
    intros v'.
    eapply hoare_weaken; [apply (fills_resolved_set (fun d => resolved_so_far r0
       (def_args (tfm r0)) ((def_args (tfm r0)).*1 ++ (pre ++ [(k, rf)]).*1) d))
       | | done | done].
    intros [r g] [(HA & HB & HC & HD) Hfresh]. unfold on_resolved. simpl in *.
    assert (Hne : forall k0 v0, dict_get (resolved r) k0 = Some v0 -> k0 <> k).
    { intros k0 v0 Hg ->. unfold dict_in in Hfresh. by rewrite Hg in Hfresh. }
    split; [|split; [|split]].
    + intros k0 v0 Hin Hun. rewrite dict_get_set_ne; [by apply HA|].
      eapply Hne. by apply HA.
    + intros k0 Hin. apply dict_in_set. right. by apply HB.
    + intros k0 v0 Hg Hnk. rewrite dict_get_set_ne; [by apply HC|].
      eapply Hne. by apply HC.
    + intros k0 Hin. apply dict_in_set. rewrite fmap_app, app_assoc in Hin.
      apply elem_of_app in Hin as [Hin|Hin]; [right; by apply HD|].
      apply list_elem_of_singleton in Hin as ->. by left.
Qed.

(** the three loops, after [self.resolved = {}] *)
Lemma fills_loops :
  hoare (fun _ => True)
    (self_update (set_resolved []) ;;
     for_each (kwargs r0) (fun '(k, v) =>
       match dict_get (params (tfm r0)) k with
       | Some rand_func =>
           a <- lift (value_listy v) ;;
           args <- lift (listify a QNone) ;;
           r <- with_rng (rand_func args) ;;
           resolved_set k r
       | None => resolved_set k v
       end) ;;
     for_each (def_args (tfm r0)) (fun '(k, v) =>
       self <- self_get ;;
       if dict_in k (resolved self) then ret tt else resolved_set k v) ;;
     for_each (params (tfm r0)) (fun '(k, v) =>
       self <- self_get ;;
       if dict_in k (resolved self) then ret tt
       else r <- with_rng (v []) ;; resolved_set k r))
    (fun _ => on_resolved (fun d =>
       resolved_so_far r0 (def_args (tfm r0))
         ((def_args (tfm r0)).*1 ++ (params (tfm r0)).*1) d)) E.
Proof.
  eapply hoare_bind with (Q := fun _ => on_resolved (Inv1 [])).
  { intros [r g] _. unfold on_resolved. simpl. split.
    - intros k v Hin. by apply elem_of_nil in Hin.
    - intros k. split; [done|]. intros Hin. by apply elem_of_nil in Hin. }
  intros ?. eapply hoare_bind; [apply fills_loop1|].
  intros ?. eapply hoare_bind.
  { eapply hoare_weaken; [apply fills_loop2 | | intros ? ? Hq; exact Hq | done].
    intros [r g] [HA HB]. unfold on_resolved in *. simpl in *. split.
    - split; [done|]. split; [intros k Hk; by apply HB|]. split.
      + intros k v Hg. done.
      + intros k Hin. by apply elem_of_nil in Hin.
    - intros k Hk. by apply HB. }
  intros ?. apply fills_loop3.
Qed.
End ResolveFills.

(** X14. With [is_random] set, a [resolve] that returns has given every
    parameter a value: a raw keyword argument whose name is not annotated is
    taken as it is, a default is taken where no raw value was given, and
    every name among the raw arguments, the defaults and the annotations is
    in [resolved].  A [resolve] can only raise when the descriptor has an
    annotated parameter. *)
Theorem resolve_fills_parameters `{Backend} (r : RandTransform) (g : rng) :
  is_random r = true -> NoDup (kwargs r).*1 ->
  match RandTransform_resolve (r, g) with
  | (Ok _, (r', _)) =>
      (forall k v, dict_get (kwargs r) k = Some v ->
         dict_get (params (tfm r)) k = None -> dict_get (resolved r') k = Some v)
      /\ (forall k v, dict_get (def_args (tfm r)) k = Some v ->
            dict_get (kwargs r) k = None -> dict_get (resolved r') k = Some v)
      /\ (forall k,
            dict_in k (kwargs r) || dict_in k (def_args (tfm r))
            || dict_in k (params (tfm r)) = true ->
            dict_in k (resolved r') = true)
  | (Err _, _) => params (tfm r) <> []
  end.
Proof.
  intros Hir Hnd. unfold RandTransform_resolve.
  unfold bind at 1. unfold self_get at 1. cbn [fst]. rewrite Hir. cbn [negb].
  pose proof (fills_loops r Hnd (r, g) I) as Hloops.
  assert (Hre : forall (m1 m2 m3 m4 m5 : ST (RandTransform * rng) unit) s,
    (m1 ;; m2 ;; m3 ;; m4 ;; m5) s = ((m1 ;; m2 ;; m3 ;; m4) ;; m5) s).
  { intros. unfold bind. destruct (m1 s) as [[[]|?] ?]; [|done].
    destruct (m2 _) as [[[]|?] ?]; [|done].
    destruct (m3 _) as [[[]|?] ?]; done. }
  rewrite Hre. clear Hre. unfold bind at 1.
  match type of Hloops with match ?m _ with _ => _ end =>
    destruct (m (r, g)) as [[[]|e] [r' g']] eqn:El end; [|exact Hloops].
  rewrite (resolve_draws_do_run r (r', g')). simpl.
  destruct Hloops as (HA & HB & HC & HD). simpl in *. split; [|split].
  - intros k v Hg Hun. apply HA; [by apply dict_get_elem | done].
  - intros k v Hg Hn. apply HC; [done|]. by apply dict_get_None.
  - intros k Hk. apply orb_true_iff in Hk as [Hk|Hk];
      [apply orb_true_iff in Hk as [Hk|Hk]|].
    + apply HB. by apply dict_in_keys.
    + apply HD. apply elem_of_app. left. by apply dict_in_keys.
    + apply HD. apply elem_of_app. right. by apply dict_in_keys.
Qed.

Lemma resolve_fills_parameters_witness :
  let r' := fst (snd (RandTransform_resolve (H := stub_backend)
              (Transform_call_kw (shade (H := stub_backend)) 1 true
                 [("change"%string, VTuple [VInt 0; VInt 1]);
                  ("gain"%string, VInt 3)], Rng 0 0))) in
  dict_get (resolved r') "gain" = Some (VInt 3)
  /\ dict_get (resolved r') "mode" = Some (VStr "soft")
  /\ dict_in "change" (resolved r') = true.
Proof.
  cbv zeta.
  set (r := Transform_call_kw (shade (H := stub_backend)) 1 true
              [("change"%string, VTuple [VInt 0; VInt 1]);
               ("gain"%string, VInt 3)]).
  assert (Hok : is_err (fst (RandTransform_resolve (H := stub_backend) (r, Rng 0 0)))
                = false) by (vm_compute; reflexivity).
  assert (Hnd : NoDup (kwargs r).*1).
  { simpl. apply NoDup_cons_2; [|apply NoDup_singleton].
    intros Hin. apply list_elem_of_singleton in Hin. discriminate. }
  pose proof (resolve_fills_parameters (H := stub_backend) r (Rng 0 0) eq_refl Hnd)
    as Hm.
  destruct (RandTransform_resolve (H := stub_backend) (r, Rng 0 0))
    as [[[]|e] [r' g']].
  - simpl. destruct Hm as (H1 & H2 & H3). split; [|split].
    + apply H1; reflexivity.
    + apply H2; reflexivity.
    + apply H3. reflexivity.
  - simpl in Hok. discriminate.
Defined.

(** ** The affine matrices *)

Lemma Qc_two_neq_0 : Qc_of_Z 2 <> 0%Qc.
Proof. intros E. discriminate E. Qed.

(** X15. [zoom] scales the sampling coordinates about the point
    [(2*col_pct - 1, 2*row_pct - 1)] by [1/scale]: that point stays where it
    is, and the matrix has the last row 0 0 1.  A [scale] of 0 raises. *)
Theorem zoom_about_focus (scale row_pct col_pct : Qc) :
  zoom 0 row_pct col_pct = None
  /\ (scale <> 0%Qc ->
      exists m,
        zoom scale row_pct col_pct = Some m /\ affine_row m
        /\ (forall x y : Qc,
              affine_mult [[(x, y)]] (Some m)
              = [[(focus col_pct + (x - focus col_pct) / scale,
                   focus row_pct + (y - focus row_pct) / scale)%Qc]])
        /\ affine_mult [[(focus col_pct, focus row_pct)]] (Some m)
           = [[(focus col_pct, focus row_pct)]]).
Proof.
  split; [reflexivity|]. intros Hs. unfold zoom.
  rewrite bool_decide_eq_false_2 by done. eexists. split; [reflexivity|].
  split; [repeat split|]. split.
  - intros x y. unfold affine_mult, get_zoom_mat, focus. simpl.
    f_equal. f_equal. f_equal; field; done.
  - unfold affine_mult, get_zoom_mat, focus. simpl.
    f_equal. f_equal. f_equal; field; done.
Qed.

Lemma zoom_about_focus_witness :
  exists m,
    zoom (Qc_of_Z 2) (Qc_of_Z 1) 0 = Some m
    /\ affine_mult [[(focus 0, focus (Qc_of_Z 1))]] (Some m)
       = [[(focus 0, focus (Qc_of_Z 1))]].
Proof.
  destruct (proj2 (zoom_about_focus (Qc_of_Z 2) (Qc_of_Z 1) 0) Qc_two_neq_0)
    as (m & Hz & _ & _ & Hfix).
  exists m. split; [exact Hz | exact Hfix].
Defined.

(** X16. [squish]: with [scale <= 1] it scales the columns
    about [2*col_pct - 1] by [scale] and leaves the rows alone; with
    [scale > 1] it scales the rows about [2*row_pct - 1] by [1/scale] and
    leaves the columns alone.  A [scale] of 1 gives the identity. *)
Theorem squish_one_axis (scale row_pct col_pct x y : Qc) :
  affine_row (squish scale row_pct col_pct)
  /\ squish 1 row_pct col_pct = eye3
  /\ ((scale <= 1)%Qc ->
      affine_mult [[(x, y)]] (Some (squish scale row_pct col_pct))
      = [[(focus col_pct + (x - focus col_pct) * scale, y)%Qc]])
  /\ ((1 < scale)%Qc ->
      affine_mult [[(x, y)]] (Some (squish scale row_pct col_pct))
      = [[(x, focus row_pct + (y - focus row_pct) / scale)%Qc]]).
Proof.
  split; [|split; [|split]].
  - unfold squish. destruct (bool_decide _); repeat split.
  - unfold squish. rewrite bool_decide_eq_true_2 by apply Qcle_refl.
    unfold get_zoom_mat, eye3. f_equal. ring.
  - intros Hs. unfold squish. rewrite bool_decide_eq_true_2 by done.
    unfold affine_mult, get_zoom_mat, focus. simpl.
    f_equal. f_equal. f_equal; ring.
  - intros Hs. unfold squish.
    rewrite bool_decide_eq_false_2 by (by apply Qclt_not_le).
    assert (scale <> 0%Qc).
    { intros ->. by apply (Qclt_not_le _ _ Hs). }
    unfold affine_mult, get_zoom_mat, focus. simpl.
    f_equal. f_equal. f_equal; field; done.
Qed.

Lemma squish_one_axis_witness :
  affine_mult [[(1%Qc, 1%Qc)]] (Some (squish (Qc_of_Z 2) 0 0))
  = [[(1, focus 0 + (1 - focus 0) / Qc_of_Z 2)%Qc]].
Proof.
  apply (squish_one_axis (Qc_of_Z 2) 0 0 1 1). reflexivity.
Defined.

(** ** [crop] *)

Lemma Qc_of_Z_this (z : Z) : this (Qc_of_Z z) = inject_Z z.
Proof.
  unfold Qc_of_Z. simpl. apply Qred_identity. simpl. apply Z.gcd_1_r.
Qed.

Lemma py_int_whole (m : Z) : py_int (Qc_of_Z m * 1)%Qc = m.
Proof.
  rewrite Qcmult_1_r. unfold py_int. rewrite Qc_of_Z_this. simpl.
  apply Z.quot_1_r.
Qed.

Lemma py_int_bounds (m : Z) (pct : Qc) :
  0 < m -> (0 <= pct)%Qc -> (pct < 1)%Qc ->
  0 <= py_int (Qc_of_Z m * pct)%Qc <= m - 1.
Proof.
  intros Hm H0 H1.
  assert (Hpos : (0 < Qc_of_Z m)%Qc).
  { unfold Qclt. rewrite Qc_of_Z_this. unfold Qlt. simpl. lia. }
  assert (Hlo : (0 <= Qc_of_Z m * pct)%Qc).
  { apply Qcmult_nonneg_nonneg; [by apply Qclt_le_weak | done]. }
  assert (Hhi : (Qc_of_Z m * pct < Qc_of_Z m)%Qc).
  { rewrite <- (Qcmult_1_r (Qc_of_Z m)) at 2.
    by apply Qcmult_lt_mono_pos_l. }
  set (q := (Qc_of_Z m * pct)%Qc) in *. clearbody q.
  unfold Qcle, Qle in Hlo. simpl in Hlo.
  unfold Qclt in Hhi. rewrite Qc_of_Z_this in Hhi. unfold Qlt in Hhi.
  simpl in Hhi. unfold py_int.
  rewrite Z.quot_div_nonneg by lia. split.
  - apply Z.div_pos; lia.
  - assert (Qnum q / Z.pos (Qden q) < m); [|lia].
    apply Z.div_lt_upper_bound; lia.
Qed.

Lemma py_slice_inside {A} (l : list A) (a n : nat) :
  (a + n <= length l)%nat ->
  py_slice l (Z.of_nat a) (Z.of_nat a + Z.of_nat n) = take n (drop a l).
Proof.
  intros Hl. unfold py_slice.
  rewrite !(proj2 (Z.ltb_ge _ _)) by lia.
  rewrite !Z.min_l by lia. f_equal; [lia | f_equal; lia].
Qed.

Lemma py_slice_length {A} (l : list A) (a b : Z) :
  0 <= a -> 0 <= b ->
  Z.of_nat (length (py_slice l a b))
  = Z.max 0 (Z.min b (Z.of_nat (length l)) - Z.min a (Z.of_nat (length l))).
Proof.
  intros Ha Hb. unfold py_slice.
  rewrite !(proj2 (Z.ltb_ge _ _)) by lia.
  rewrite length_take, length_drop. lia.
Qed.

Lemma map_lookup {A B} (f : A -> B) (l : list A) (i : nat) :
  map f l !! i = f <$> l !! i.
Proof. revert i. induction l as [|a l IH]; intros [|i]; simpl; auto. Qed.

(** X17. [crop] with both percentages in [0, 1) and a window that fits
    the image: the call returns the window of [rows] by [cols] pixels of
    every channel that starts at row [int((h-rows+1)*row_pct)] and column
    [int((w-cols+1)*col_pct)], and the window lies inside the image. *)
Theorem crop_takes_window (x : tensor) (size : listy Z) (rows cols : nat)
    (row_pct col_pct : Qc) :
  rectangular x ->
  listify size (QInt 2) = Ok [Z.of_nat rows; Z.of_nat cols] ->
  (0 < rows)%nat -> (rows <= snd (fst (tshape x)))%nat ->
  (0 < cols)%nat -> (cols <= snd (tshape x))%nat ->
  (0 <= row_pct)%Qc -> (row_pct < 1)%Qc ->
  (0 <= col_pct)%Qc -> (col_pct < 1)%Qc ->
  exists (r : tensor) (row col : nat),
    crop x size row_pct col_pct = Ok r
    /\ Z.of_nat row
       = py_int (Qc_of_Z (Z.of_nat (snd (fst (tshape x))) - Z.of_nat rows + 1)
                 * row_pct)%Qc
    /\ Z.of_nat col
       = py_int (Qc_of_Z (Z.of_nat (snd (tshape x)) - Z.of_nat cols + 1)
                 * col_pct)%Qc
    /\ (row + rows <= snd (fst (tshape x)))%nat
    /\ (col + cols <= snd (tshape x))%nat
    /\ length r = length x
    /\ Forall (fun chan =>
           length chan = rows /\ Forall (fun rw => length rw = cols) chan) r
    /\ forall k i j, (i < rows)%nat -> (j < cols)%nat ->
         pixel_at r k i j = pixel_at x k (row + i) (col + j).
Proof.
  intros Hrect Hl Hr0 Hr Hc0 Hc Hp0 Hp1 Hq0 Hq1.
  unfold crop. rewrite Hl. cbn [nth].
  unfold rectangular in Hrect. destruct (tshape x) as [[c h] w] eqn:Es.
  simpl in Hr, Hc |- *.
  pose proof (py_int_bounds (Z.of_nat h - Z.of_nat rows + 1) row_pct
                ltac:(lia) Hp0 Hp1) as Hrow.
  pose proof (py_int_bounds (Z.of_nat w - Z.of_nat cols + 1) col_pct
                ltac:(lia) Hq0 Hq1) as Hcol.
  set (rowZ := py_int (Qc_of_Z (Z.of_nat h - Z.of_nat rows + 1) * row_pct)%Qc) in *.
  set (colZ := py_int (Qc_of_Z (Z.of_nat w - Z.of_nat cols + 1) * col_pct)%Qc) in *.
  assert (Er : rowZ = Z.of_nat (Z.to_nat rowZ)) by lia.
  assert (Ec : colZ = Z.of_nat (Z.to_nat colZ)) by lia.
  set (row := Z.to_nat rowZ) in *. set (col := Z.to_nat colZ) in *.
  clearbody row col. subst rowZ colZ. rewrite Er, Ec.
  exists (map (fun chan =>
            map (fun r => py_slice r (Z.of_nat col) (Z.of_nat col + Z.of_nat cols))
              (py_slice chan (Z.of_nat row) (Z.of_nat row + Z.of_nat rows))) x),
    row, col.
  split; [reflexivity|]. split; [done|]. split; [done|].
  split; [lia|]. split; [lia|].
  split; [by rewrite length_map|]. split.
  - apply List.Forall_map. eapply Forall_impl; [|exact Hrect].
    intros chan [Hlen Hrows]. simpl.
    rewrite py_slice_inside by lia. split.
    + rewrite length_map, length_take, length_drop. lia.
    + apply List.Forall_map. apply Forall_take, Forall_drop.
      eapply Forall_impl; [|exact Hrows]. intros rw Hrw. simpl in Hrw |- *.
      rewrite py_slice_inside by lia.
      rewrite length_take, length_drop. lia.
  - intros k i j Hi Hj. unfold pixel_at. rewrite map_lookup.
    destruct (x !! k) as [chan|] eqn:Ek; simpl; [|done].
    destruct (proj1 (List.Forall_forall _ _) Hrect chan) as [Hlen Hrows].
    { apply list_elem_of_In. by eapply list_elem_of_lookup_2. }
    rewrite py_slice_inside by lia.
    rewrite map_lookup, lookup_take_lt, lookup_drop by lia.
    destruct (chan !! (row + i)%nat) as [rw|] eqn:Erw; simpl; [|done].
    assert (Hrw : length rw = w).
    { apply (proj1 (List.Forall_forall _ _) Hrows).
      apply list_elem_of_In. by eapply list_elem_of_lookup_2. }
    rewrite py_slice_inside by lia.
    by rewrite lookup_take_lt, lookup_drop by lia.
Qed.

Lemma crop_takes_window_witness :
  exists r, crop nine_pixels (PAtom 2) (Qc_of_Z 1 / Qc_of_Z 2) 0 = Ok r
            /\ pixel_at r 0 0 0 = pixel_at nine_pixels 0 1 0.
Proof.
  destruct (crop_takes_window nine_pixels (PAtom 2) 2 2 (Qc_of_Z 1 / Qc_of_Z 2) 0)
    as (r & row & col & Hrun & Hrow & Hcol & _ & _ & _ & _ & Hpx).
  - unfold rectangular. simpl. repeat constructor.
  - reflexivity.
  - lia.
  - simpl. lia.
  - lia.
  - simpl. lia.
  - discriminate.
  - reflexivity.
  - discriminate.
  - reflexivity.
  - exists r. split; [exact Hrun|].
    assert (row = 1%nat) as -> by (apply Nat2Z.inj; rewrite Hrow; reflexivity).
    assert (col = 0%nat) as -> by (apply Nat2Z.inj; rewrite Hcol; reflexivity).
    apply (Hpx 0%nat 0%nat 0%nat); lia.
Defined.

(** X18. With [row_pct = 1] the window starts one row too low: a crop
    asked to have [rows] rows, on an image that has at least as many, comes
    back with [rows - 1]. *)
Theorem crop_last_percent_short (x : tensor) (size : listy Z) (rows cols : nat)
    (col_pct : Qc) :
  rectangular x ->
  listify size (QInt 2) = Ok [Z.of_nat rows; Z.of_nat cols] ->
  (2 <= rows)%nat -> (rows <= snd (fst (tshape x)))%nat ->
  exists r : tensor,
    crop x size 1 col_pct = Ok r
    /\ length r = length x
    /\ Forall (fun chan => length chan = (rows - 1)%nat) r.
Proof.
  intros Hrect Hl Hr0 Hr. unfold crop. rewrite Hl. cbn [nth].
  unfold rectangular in Hrect. destruct (tshape x) as [[c h] w] eqn:Es.
  simpl in Hr |- *. rewrite py_int_whole.
  eexists. split; [reflexivity|]. split; [by rewrite length_map|].
  apply List.Forall_map. eapply Forall_impl; [|exact Hrect].
  intros chan [Hlen _]. simpl. rewrite length_map.
  apply Nat2Z.inj. rewrite py_slice_length by lia. lia.
Qed.

Lemma crop_last_percent_short_witness :
  exists r : tensor,
    crop nine_pixels (PSeq [2; 3]) 1 0 = Ok r
    /\ Forall (fun chan => length chan = 1%nat) r.
Proof.
  destruct (crop_last_percent_short nine_pixels (PSeq [2; 3]) 2 3 0)
    as (r & Hrun & _ & Hlen).
  - unfold rectangular. simpl. repeat constructor.
  - reflexivity.
  - lia.
  - simpl. lia.
  - exists r. split; [exact Hrun | exact Hlen].
Defined.

(** ** [flip_lr] through [Image.pixel] *)

Lemma Image_pixel_new `{Backend} (x : nat) (f : tensor_func) args kw
    (t' : tensor) (w : world) :
  settled (image_at w x) -> in_place f = false ->
  run f args kw (tensor_at w (_px (image_at w x))) = Ok t' ->
  Image_pixel x f args kw w
  = (Ok x, upd_image x (set_px (length (tensors w))) (push_tensor t' w)).
Proof.
  intros (Hl & Hf & Ha) Hip Hrun. unfold Image_pixel, Image_px.
  unfold bind at 1. unfold bind at 1. rewrite Image_refresh_clean by done.
  unfold bind, get_image, call_tensor_func, bind, read_tensor, ret.
  cbv beta iota. rewrite Hrun. simpl. rewrite Hip. reflexivity.
Qed.

Lemma flip_flip (t : tensor) : map (map (@rev Qc)) (map (map (@rev Qc)) t) = t.
Proof.
  rewrite map_map. rewrite <- (map_id t) at 2. apply map_ext. intros chan.
  rewrite map_map. rewrite <- (map_id chan) at 2. apply map_ext. intros rw.
  apply rev_involutive.
Qed.

(** X19. [flip_lr] twice through [Image.pixel], on an image with nothing
    pending: the pixels read afterwards are the original ones, held by a new
    tensor, and no tensor that existed before has changed. *)
Theorem flip_twice_restores `{Backend} (x : nat) (w : world) :
  (x < length (images w))%nat -> settled (image_at w x) ->
  exists l w',
    (Image_pixel x flip_lr [] [] ;; Image_pixel x flip_lr [] [] ;;
     Image_data x) w = (Ok l, w')
    /\ tensor_at w' l = tensor_at w (_px (image_at w x))
    /\ (length (tensors w) <= l)%nat
    /\ forall l0, (l0 < length (tensors w))%nat ->
         tensor_at w' l0 = tensor_at w l0.
Proof.
  intros Hx Hs.
  set (t := tensor_at w (_px (image_at w x))).
  set (n := length (tensors w)).
  set (w1 := upd_image x (set_px n) (push_tensor (map (map (@rev Qc)) t) w)).
  assert (H1 : Image_pixel x flip_lr [] [] w = (Ok x, w1))
    by (by apply Image_pixel_new).
  assert (Hi1 : image_at w1 x = set_px n (image_at w x)).
  { subst w1. by rewrite image_at_upd_image. }
  assert (Hs1 : settled (image_at w1 x)) by (by rewrite Hi1).
  assert (Hn1 : length (tensors w1) = S n).
  { subst w1 n. rewrite tensors_upd_image. unfold push_tensor. simpl.
    rewrite length_app. simpl. lia. }
  assert (Ht1 : tensor_at w1 n = map (map (@rev Qc)) t).
  { subst w1. rewrite tensor_at_upd_image. apply tensor_at_push_tensor_new. }
  set (w2 := upd_image x (set_px (S n)) (push_tensor t w1)).
  assert (H2 : Image_pixel x flip_lr [] [] w1 = (Ok x, w2)).
  { subst w2. rewrite <- Hn1. apply Image_pixel_new; [done | done |].
    rewrite Hi1. simpl. rewrite Ht1. simpl. by rewrite flip_flip. }
  assert (Hx1 : (x < length (images w1))%nat).
  { subst w1. by rewrite length_images_upd_image. }
  assert (Hi2 : image_at w2 x = set_px (S n) (image_at w1 x)).
  { subst w2. by rewrite image_at_upd_image. }
  assert (Hs2 : settled (image_at w2 x)) by (by rewrite Hi2).
  exists (S n), w2. split; [|split; [|split]].
  - unfold bind. rewrite H1, H2. unfold Image_data, Image_px, bind.
    destruct Hs2 as (Hl & Hf & Ha). rewrite Image_refresh_clean by done.
    unfold get_image. by rewrite Hi2.
  - subst w2. rewrite tensor_at_upd_image, <- Hn1.
    apply tensor_at_push_tensor_new.
  - lia.
  - intros l0 Hl0. subst w2. rewrite tensor_at_upd_image.
    rewrite tensor_at_push_tensor_old by lia.
    subst w1. rewrite tensor_at_upd_image.
    by rewrite tensor_at_push_tensor_old.
Qed.

Lemma flip_twice_restores_witness :
  exists l w',
    (Image_pixel (H := stub_backend) 0 flip_lr [] [] ;;
     Image_pixel (H := stub_backend) 0 flip_lr [] [] ;;
     Image_data (H := stub_backend) 0) clean_world = (Ok l, w')
    /\ tensor_at w' l = two_pixels.
Proof.
  destruct (flip_twice_restores (H := stub_backend) 0 clean_world)
    as (l & w' & Hrun & Ht & _).
  - simpl. lia.
  - repeat split.
  - exists l, w'. split; [exact Hrun | exact Ht].
Defined.

(** ** The order of the caller's list *)

Section SortedUnique.
Context {A : Type} (key : A -> Z).

Lemma sorted_perm_unique (l1 l2 : list A) :
  StronglySorted (key_le key) l1 -> StronglySorted (key_le key) l2 ->
  NoDup (map key l1) -> Permutation l1 l2 -> l1 = l2.
Proof.
  revert l2. induction l1 as [|a l1 IH]; intros l2 Hs1 Hs2 Hnd Hp.
  - by apply Permutation_nil in Hp.
  - destruct l2 as [|b l2].
    { symmetry in Hp. by apply Permutation_nil in Hp. }
    apply StronglySorted_inv in Hs1 as [Hs1 Ha].
    apply StronglySorted_inv in Hs2 as [Hs2 Hb].
    simpl in Hnd. pose proof (NoDup_cons_1_1 _ _ Hnd) as Hna.
    pose proof (NoDup_cons_1_2 _ _ Hnd) as Hnd'.
    assert (Eab : a = b).
    { assert (Hina : a ∈ b :: l2).
      { rewrite <- Hp. apply list_elem_of_here. }
      assert (Hinb : b ∈ a :: l1).
      { rewrite Hp. apply list_elem_of_here. }
      apply elem_of_cons in Hina as [|Hina]; [done|].
      apply elem_of_cons in Hinb as [|Hinb]; [done|].
      exfalso. apply Hna.
      pose proof (proj1 (List.Forall_forall _ _) Ha b
                    (proj1 (list_elem_of_In _ _) Hinb)) as Hab.
      pose proof (proj1 (List.Forall_forall _ _) Hb a
                    (proj1 (list_elem_of_In _ _) Hina)) as Hba.
      unfold key_le in Hab, Hba.
      assert (Ek : key a = key b) by lia. rewrite Ek.
      apply list_elem_of_In, in_map, list_elem_of_In. done. }
    subst b. f_equal. apply IH; try done.
    by apply Permutation_cons_inv in Hp.
Qed.

End SortedUnique.

(** X20. The order in which the caller lists the transforms does not
    matter when their priorities are pairwise different: two lists with the
    same instances give the same run of [apply_tfms]. *)
Theorem apply_tfms_order_free `{Backend} (l1 l2 : list RandTransform) (x : nat)
    (do_resolve : bool) (xtra : option (list (nat * dict value)))
    (size : option size_arg) (kw : dict value) (w : world) :
  Permutation l1 l2 -> NoDup (map (fun o => order (tfm o)) l1) ->
  pipeline_order l1 = pipeline_order l2
  /\ apply_tfms (PSeq l1) x do_resolve xtra size kw w
     = apply_tfms (PSeq l2) x do_resolve xtra size kw w.
Proof.
  intros Hp Hnd.
  assert (Ho : pipeline_order l1 = pipeline_order l2).
  { unfold pipeline_order.
    apply (sorted_perm_unique (fun o => order (tfm o))).
    - apply py_sorted_sorted.
    - apply py_sorted_sorted.
    - assert (Hpm : Permutation
        (map (fun o => order (tfm o)) (py_sorted (fun o => order (tfm o)) l1))
        (map (fun o => order (tfm o)) l1))
        by apply Permutation_map, py_sorted_perm.
      by rewrite Hpm.
    - rewrite !py_sorted_perm. done. }
  split; [done|]. unfold apply_tfms.
  assert (Ht : listy_truthy (PSeq l1) = listy_truthy (PSeq l2)).
  { simpl. f_equal. destruct l1, l2; try done.
    - by apply Permutation_nil in Hp.
    - symmetry in Hp. by apply Permutation_nil in Hp. }
  rewrite Ht. destruct (negb _); [done|].
  unfold bind at 1. unfold bind at 4.
  rewrite !listify_no_count. simpl. by rewrite Ho.
Qed.

Lemma apply_tfms_order_free_witness :
  pipeline_order [copy_instance; first_pad] = pipeline_order [first_pad; copy_instance]
  /\ apply_tfms (H := stub_backend) (PSeq [copy_instance; first_pad]) 0 true None
       None [] clean_world
     = apply_tfms (H := stub_backend) (PSeq [first_pad; copy_instance]) 0 true None
         None [] clean_world.
Proof.
  apply (apply_tfms_order_free (H := stub_backend)).
  - apply perm_swap.
  - simpl. apply NoDup_cons_2; [|apply NoDup_singleton].
    intros Hin. apply list_elem_of_singleton in Hin. discriminate.
Defined.
